(** * Address resolution engine of [utils/geocode.py]

    A shallow embedding of the geocoding cache, the query normalizer, the
    generic fallback generator, the rate-limited fetcher and the resolver,
    followed by the properties stated about them.

    Conventions of the embedding.
    - Python [str] is [string]; non-ASCII characters of the literal tables
      are carried as their UTF-8 bytes.  [strip], [upper], [lower], the
      classes [\s], [\d] and [[a-zA-Z]] are given on the ASCII range; [len]
      counts code points of the UTF-8 text.
    - A [dict] keyed by strings is a [gmap string _].
    - Functions that read or write the cache file, the clock or the network
      are state transformers over [World] that may raise. *)

From Stdlib Require Import String Ascii List ZArith QArith Lqa Bool Lia.
From stdpp Require Import base option gmap strings list fin_maps.
Import ListNotations.
Local Open Scope string_scope.
Local Open Scope list_scope.

(** ** Text primitives *)

Module Text.

Definition code (c : ascii) : nat := nat_of_ascii c.

(** [str.isspace] on one ASCII character: TAB..CR, FS..US and SPACE. *)
Definition is_space (c : ascii) : bool :=
  let n := code c in
  (Nat.leb 9 n && Nat.leb n 13) || (Nat.leb 28 n && Nat.leb n 32).

Definition is_digit (c : ascii) : bool :=
  let n := code c in Nat.leb 48 n && Nat.leb n 57.

Definition is_lower (c : ascii) : bool :=
  let n := code c in Nat.leb 97 n && Nat.leb n 122.

Definition is_upper (c : ascii) : bool :=
  let n := code c in Nat.leb 65 n && Nat.leb n 90.

(** The regex class [[a-zA-Z]]. *)
Definition is_letter (c : ascii) : bool := is_lower c || is_upper c.

Definition upper_char (c : ascii) : ascii :=
  if is_lower c then ascii_of_nat (code c - 32) else c.

Definition lower_char (c : ascii) : ascii :=
  if is_upper c then ascii_of_nat (code c + 32) else c.

Fixpoint smap (f : ascii -> ascii) (s : string) : string :=
  match s with
  | EmptyString => EmptyString
  | String c s' => String (f c) (smap f s')
  end.

(** [s.upper()] and [s.lower()] as they are on ASCII text.  On other text
    Python also maps the non-ASCII letters, and may change the number of
    characters. *)
Definition upper : string -> string := smap upper_char.
Definition lower : string -> string := smap lower_char.

(** Every character of [s] is ASCII. *)
Fixpoint ascii_only (s : string) : bool :=
  match s with
  | EmptyString => true
  | String c s' => Nat.ltb (code c) 128 && ascii_only s'
  end.

Fixpoint rev_onto (s acc : string) : string :=
  match s with
  | EmptyString => acc
  | String c s' => rev_onto s' (String c acc)
  end.

Definition srev (s : string) : string := rev_onto s EmptyString.

Fixpoint lstrip (s : string) : string :=
  match s with
  | EmptyString => EmptyString
  | String c s' => if is_space c then lstrip s' else s
  end.

Definition rstrip (s : string) : string := srev (lstrip (srev s)).

(** [s.strip()] *)
Definition strip (s : string) : string := rstrip (lstrip s).

(** A UTF-8 continuation byte, [10xxxxxx]. *)
Definition is_continuation (c : ascii) : bool :=
  let n := code c in Nat.leb 128 n && Nat.leb n 191.

(** [len(s)]: the number of code points. *)
Fixpoint len (s : string) : nat :=
  match s with
  | EmptyString => 0
  | String c s' => if is_continuation c then len s' else S (len s')
  end.

(** [s.endswith(suffix)] *)
Definition endswith (s suffix : string) : bool :=
  String.prefix (srev suffix) (srev s).

(** [sub in s] *)
Fixpoint contains (sub s : string) : bool :=
  String.prefix sub s ||
  match s with
  | EmptyString => false
  | String _ s' => contains sub s'
  end.

(** [s.split(", ")]; [cur] holds the current piece, reversed. *)
Fixpoint split_comma_space_from (s cur : string) : list string :=
  match s with
  | EmptyString => [srev cur]
  | String c s' =>
      match s' with
      | String d rest =>
          if Ascii.eqb c "," && Ascii.eqb d " "
          then srev cur :: split_comma_space_from rest EmptyString
          else split_comma_space_from s' (String c cur)
      | EmptyString => split_comma_space_from s' (String c cur)
      end
  end.

Definition split_comma_space (s : string) : list string :=
  split_comma_space_from s EmptyString.

(** [", ".join(l)] *)
Definition join (l : list string) : string := String.concat ", " l.

(** [l[-n:]] *)
Definition last_n {A} (n : nat) (l : list A) : list A :=
  skipn (length l - n) l.

(** [l[-1]] for a non-empty list, with a default for the empty one. *)
Definition last_of (l : list string) : string := List.last l EmptyString.

(** [s.isdigit()] on ASCII text: non-empty and decimal digits only. *)
Fixpoint all_digits (s : string) : bool :=
  match s with
  | EmptyString => true
  | String c s' => is_digit c && all_digits s'
  end.

Definition isdigit (s : string) : bool :=
  match s with
  | EmptyString => false
  | _ => all_digits s
  end.

Fixpoint drop_while (p : ascii -> bool) (s : string) : string :=
  match s with
  | EmptyString => EmptyString
  | String c s' => if p c then drop_while p s' else s
  end.

(** [re.sub(r"\s*\d+[a-zA-Z]?\s*$", "", s)].  The pattern is anchored at the
    end, so the single match is read from the end of [s] backwards:
    whitespace, at most one letter (only when a digit precedes it), at least
    one digit, and the whitespace before the digits.  Without a digit there
    is no match and [s] is returned unchanged. *)
Definition sub_street_number (s : string) : string :=
  let r := drop_while is_space (srev s) in
  let r1 :=
    match r with
    | String c (String d _ as r') =>
        if is_letter c && is_digit d then r' else r
    | _ => r
    end in
  match r1 with
  | String c _ =>
      if is_digit c
      then srev (drop_while is_space (drop_while is_digit r1))
      else s
  | EmptyString => s
  end.

(** [s.split()]: the maximal runs of non-whitespace; [cur] is reversed. *)
Fixpoint words_from (s cur : string) : list string :=
  match s with
  | EmptyString =>
      match cur with EmptyString => [] | _ => [srev cur] end
  | String c s' =>
      if is_space c
      then match cur with
           | EmptyString => words_from s' EmptyString
           | _ => srev cur :: words_from s' EmptyString
           end
      else words_from s' (String c cur)
  end.

Definition words (s : string) : list string := words_from s EmptyString.

(** [s.replace("\n", " ")] *)
Definition replace_newlines (s : string) : string :=
  smap (fun c => if Ascii.eqb c (ascii_of_nat 10) then " "%char else c) s.

(** [s.replace(c, "")] for a one-character [c] *)
Fixpoint remove_char (c : ascii) (s : string) : string :=
  match s with
  | EmptyString => EmptyString
  | String d s' => if Ascii.eqb d c then remove_char c s' else String d (remove_char c s')
  end.

(** No whitespace character occurs in [s]. *)
Fixpoint no_space (s : string) : bool :=
  match s with
  | EmptyString => true
  | String c s' => negb (is_space c) && no_space s'
  end.

End Text.

Import Text.

(** ** Query normalizer *)

Definition COUNTRY_NAMES : list (string * string) :=
  [ ("HR", "Croatia"); ("BA", "Bosnia and Herzegovina"); ("ME", "Montenegro");
    ("IT", "Italy"); ("LT", "Lithuania"); ("KZ", "Kazakhstan");
    ("PL", "Poland"); ("SE", "Sweden"); ("MK", "North Macedonia");
    ("AE", "United Arab Emirates"); ("SI", "Slovenia"); ("RS", "Serbia");
    ("HU", "Hungary"); ("AT", "Austria"); ("DE", "Germany");
    ("SK", "Slovakia"); ("CZ", "Czech Republic") ].

(** [d.get(k, default)] on a literal table. *)
Fixpoint table_get (d : list (string * string)) (k default : string) : string :=
  match d with
  | [] => default
  | (k', v) :: d' => if String.eqb k k' then v else table_get d' k default
  end.

(** [x or ""] for an optional string. *)
Definition or_empty (x : option string) : string :=
  match x with Some s => s | None => EmptyString end.

Definition build_query (address country_code : option string) : option string :=
  let cc := upper (or_empty country_code) in
  if String.eqb cc "" || negb (Nat.eqb (len cc) 2) then None
  else
    let country_name := table_get COUNTRY_NAMES cc cc in
    let q := strip (or_empty address) in
    if String.eqb q "" then None
    else if negb (endswith q country_name)
         then Some (q +:+ ", " +:+ country_name)
         else Some q.

(** ** Generic fallback generator *)

Definition _fallback_queries (cache_key : string) : list string :=
  if String.eqb cache_key "" || negb (contains ", " cache_key) then []
  else
    let parts := List.map strip (split_comma_space cache_key) in
    if Nat.ltb (length parts) 2 then []
    else
      let country := last_of parts in
      let f1 :=
        if Nat.leb 4 (length parts)
        then [join [nth 0 parts ""; nth 1 parts ""; last_of parts]]
        else [] in
      let f2 := if Nat.leb 3 (length parts) then [join (last_n 3 parts)] else [] in
      let f3 := if Nat.leb 2 (length parts) then [join (last_n 2 parts)] else [] in
      let f4 :=
        if Nat.leb 3 (length parts) then
          let address_part := nth 0 parts "" in
          let street_no_strip := strip (sub_street_number address_part) in
          if negb (String.eqb street_no_strip "")
             && negb (String.eqb street_no_strip address_part)
          then [street_no_strip +:+ ", " +:+ nth 1 parts "" +:+ ", " +:+ country]
          else []
        else [] in
      List.filter
        (fun q => negb (String.eqb q "") && negb (String.eqb q cache_key))
        (f1 ++ f2 ++ f3 ++ f4).

Definition CAMPUS_SPLIT_CANONICAL : string := "Cvite Fiskovića 3, Split, Croatia".

Definition CACHE_QUERY_CORRECTIONS : list (string * string) :=
  [ ("Velika dvorana, Croatia", CAMPUS_SPLIT_CANONICAL);
    ("Velika dvorana - studentski dom KAMPUS, Croatia", CAMPUS_SPLIT_CANONICAL);
    ("Velika dvorana - KAMPUS Studentski dom dr. Franje Tuđmana 3, Croatia", CAMPUS_SPLIT_CANONICAL);
    ("Studentski dom dr. Franje Tuđmana 3, Croatia", CAMPUS_SPLIT_CANONICAL);
    ("Studentski dom Kampus, Split, Croatia", CAMPUS_SPLIT_CANONICAL);
    ("Multifunkcionalna dvorana Kampus (ispod tribine). Studentski dom dr. Franjo Tuđman Cvite Fiskovića 3, Croatia", CAMPUS_SPLIT_CANONICAL);
    ("Multifunkcionalna dvorana Kampus (ispod tribine). Studentski dom dr. Franjo Tuđman Cvite Fiskovića 3, Split, Croatia", CAMPUS_SPLIT_CANONICAL);
    ("Kampus . Studentski dom dr. Franjo Tuđman Cvite Fiskovića 3, Croatia", CAMPUS_SPLIT_CANONICAL);
    ("Kampus . Studentski dom dr. Franjo Tuđman Cvite Fiskovića 3, Split, Croatia", CAMPUS_SPLIT_CANONICAL);
    ("Multifunkcionalna dvorana Kampus (ispod tribine). Studentski dom Kampus dr. Franje Tuđmana Cvite Fiskovića 3, Croatia", CAMPUS_SPLIT_CANONICAL);
    ("Multifunkcionalna dvorana Kampus (ispod tribine). Studentski dom Kampus dr. Franje Tuđmana Cvite Fiskovića 3, Split, Croatia", CAMPUS_SPLIT_CANONICAL);
    ("Kampus . Studentski dom Kampus dr. Franje Tuđmana Cvite Fiskovića 3, Croatia", CAMPUS_SPLIT_CANONICAL);
    ("Kampus . Studentski dom Kampus dr. Franje Tuđmana Cvite Fiskovića 3, Split, Croatia", CAMPUS_SPLIT_CANONICAL);
    ("SPINUT FUTSAL TEREN, Split, Croatia", "SPINUT FUTSAL TEREN, Croatia");
    ("Spinut futsal teren, Split, Croatia", "Spinut futsal teren, Croatia") ].

(** [frozenset(CACHE_QUERY_CORRECTIONS)]: the keys of the table. *)
Definition KEYS_TO_PURGE_FROM_CACHE : list string :=
  List.map fst CACHE_QUERY_CORRECTIONS.

(** [CACHE_QUERY_CORRECTIONS.get(query, query)] *)
Definition correct_query (query : string) : string :=
  table_get CACHE_QUERY_CORRECTIONS query query.

(** ** Values, cache entries and the world *)

(** Python's [float]: the type of numbers, [float(s)] for a string ([None]
    when it raises [ValueError]) and the truth value of a number. *)
Class PyFloat := {
  num : Type;
  float_of_str : string -> option num;
  num_truthy : num -> bool
}.

(** The exceptions the code lets escape.  [TransportError] stands for what
    [requests.get] itself raises (a connection error, a timeout). *)
Inductive exn :=
| JSONDecodeError
| UnicodeDecodeError
| ValueError
| TypeError
| KeyError
| AttributeError
| TransportError.

Inductive result (A : Type) :=
| Ok (a : A)
| Raise (e : exn).
Arguments Ok {A} a.
Arguments Raise {A} e.

(** The provider's clock-facing events: [time.sleep(d)] and the GET issued at
    time [at_time] for [q] with the optional [countrycodes] parameter. *)
Inductive event :=
| Sleep (d : Q)
| Get (at_time : Q) (q : string) (countrycodes : option string).

Section Engine.

Context `{PyFloat}.

(** A JSON scalar as the code meets it: [None], a string, a number. *)
Inductive jval :=
| JNull
| JStr (s : string)
| JNum (x : num).

(** Python truthiness. *)
Definition truthy (v : jval) : bool :=
  match v with
  | JNull => false
  | JStr s => negb (String.eqb s "")
  | JNum x => num_truthy x
  end.

(** [float(v)] *)
Definition to_float (v : jval) : result num :=
  match v with
  | JNull => Raise TypeError
  | JStr s => match float_of_str s with Some x => Ok x | None => Raise ValueError end
  | JNum x => Ok x
  end.

(** A cache value: [None], or a dict read through [.get("lat")] and
    [.get("lng")] (a missing key reads as [JNull]). *)
Inductive entry :=
| Negative
| Resolved (lat lng : jval).

(** What is on disk at a path:
    - nothing;
    - text that [json.load] rejects with [JSONDecodeError];
    - a JSON object of cache entries;
    - bytes that are not UTF-8 text (a file cut inside a multi-byte
      character): reading it raises [UnicodeDecodeError], which is no
      [JSONDecodeError];
    - a JSON document that is [null], a number or a boolean: [json.load]
      returns it and the first [key in data] raises [TypeError].
    A document that is a JSON array or a JSON string is not represented. *)
Inductive file :=
| Missing
| NotJson
| Json (data : gmap string entry)
| Undecodable
| JsonScalar.

(** What one GET comes to.  [Fault e]: an exception escapes, raised by
    [requests.get] ([TransportError]), by [resp.json()] on a body that is no
    JSON ([JSONDecodeError]) or by reading a malformed answer ([data[0]] of
    a non-empty JSON object raises [KeyError], [.get] on an element that is
    no object raises [AttributeError], [len] of a number raises
    [TypeError]).  [Places data]: the answer is a JSON array of objects,
    each read through [.get("lat")] and [.get("lon")]; an answer that is
    falsy (an empty array or object, [null], 0) reads as [Places []]. *)
Inductive response :=
| Fault (e : exn)
| Places (data : list (jval * jval)).

(** The outside of the process, indexed by the number of events so far: the
    provider's answer to a GET, how much longer than asked a sleep lasts, and
    how long a GET takes. *)
Record Network := {
  respond : nat -> string -> option string -> response;
  oversleep : nat -> Q;
  latency : nat -> Q
}.

Record World := {
  cache_file : file;
  legacy_file : file;
  clock : Q;
  _LAST_REQUEST_TIME : Q;
  trace : list event
}.

Definition set_cache_file (f : file) (w : World) : World :=
  {| cache_file := f; legacy_file := legacy_file w; clock := clock w;
     _LAST_REQUEST_TIME := _LAST_REQUEST_TIME w; trace := trace w |}.

Definition set_clock (t : Q) (w : World) : World :=
  {| cache_file := cache_file w; legacy_file := legacy_file w; clock := t;
     _LAST_REQUEST_TIME := _LAST_REQUEST_TIME w; trace := trace w |}.

Definition set_last_request_time (t : Q) (w : World) : World :=
  {| cache_file := cache_file w; legacy_file := legacy_file w; clock := clock w;
     _LAST_REQUEST_TIME := t; trace := trace w |}.

Definition log (e : event) (w : World) : World :=
  {| cache_file := cache_file w; legacy_file := legacy_file w; clock := clock w;
     _LAST_REQUEST_TIME := _LAST_REQUEST_TIME w; trace := trace w ++ [e] |}.

(** *** State and exceptions *)

Definition M (A : Type) : Type := World -> result A * World.

Definition ret {A} (a : A) : M A := fun w => (Ok a, w).

Definition raise {A} (e : exn) : M A := fun w => (Raise e, w).

Definition bind {A B} (m : M A) (k : A -> M B) : M B :=
  fun w =>
    match m w with
    | (Ok a, w') => k a w'
    | (Raise e, w') => (Raise e, w')
    end.

Definition lift {A} (r : result A) : M A := fun w => (r, w).

Notation "'do' x <- m ; k" := (bind m (fun x => k))
  (at level 10, x name, m at level 100, k at level 200).
Notation "m ;; k" := (bind m (fun _ => k))
  (at level 100, k at level 200, right associativity).

(** ** Cache store *)

Definition _save_cache (cache : gmap string entry) : M unit :=
  fun w => (Ok tt, set_cache_file (Json cache) w).

Definition exists_file (f : file) : bool :=
  match f with Missing => false | _ => true end.

Definition _migrate_legacy_cache : M unit :=
  fun w =>
    if exists_file (legacy_file w) && negb (exists_file (cache_file w)) then
      match legacy_file w with
      | Json data => (Ok tt, set_cache_file (Json data) w)
      | JsonScalar => (Ok tt, set_cache_file JsonScalar w)
      | NotJson => (Raise JSONDecodeError, w)
      | Undecodable => (Raise UnicodeDecodeError, w)
      | Missing => (Ok tt, w)
      end
    else (Ok tt, w).

(** One turn of [for key in KEYS_TO_PURGE_FROM_CACHE] on [(data, purged)]. *)
Definition purge_step (st : gmap string entry * bool) (key : string)
  : gmap string entry * bool :=
  if decide (is_Some (st.1 !! key)) then (delete key st.1, true) else st.

Definition purge_keys (data : gmap string entry) : gmap string entry * bool :=
  foldl purge_step (data, false) KEYS_TO_PURGE_FROM_CACHE.

Definition _load_cache : M (gmap string entry) :=
  _migrate_legacy_cache ;;
  fun w =>
    match cache_file w with
    | Json data =>
        let '(data', purged) := purge_keys data in
        if purged then (_save_cache data' ;; ret data') w else ret data' w
    | NotJson => ret ∅ w
    | Undecodable => (Raise UnicodeDecodeError, w)
    | JsonScalar => (Raise TypeError, w)
    | Missing => ret ∅ w
    end.

(** A mapping free of known-bad keys. *)
Definition purge_free (data : gmap string entry) : Prop :=
  forall k, k ∈ KEYS_TO_PURGE_FROM_CACHE -> data !! k = None.

(** The cache file after [_load_cache] read the JSON object [stored]. *)
Definition after_purge (stored : gmap string entry) (w : World) : World :=
  if (purge_keys stored).2
  then set_cache_file (Json (purge_keys stored).1) w
  else w.

(** ** Rate-limited fetcher *)

Definition RATE_LIMIT_SEC : Q := 11 # 10.

Definition Qltb (x y : Q) : bool := negb (Qle_bool y x).

Section WithNetwork.

Variable net : Network.

(** [time.sleep(d)]: lasts [d] and whatever the scheduler adds. *)
Definition sleep (d : Q) : M unit :=
  fun w =>
    let n := length (trace w) in
    (Ok tt, log (Sleep d) (set_clock (clock w + d + oversleep net n)%Q w)).

(** [requests.get(url, ...).json()] for the URL built from [q] and
    [countrycodes], up to the point where the answer is read; whatever
    exception escapes on the way is the provider's [Fault]. *)
Definition http_get (q : string) (countrycodes : option string) : M (list (jval * jval)) :=
  fun w =>
    let n := length (trace w) in
    let w' := log (Get (clock w) q countrycodes) (set_clock (clock w + latency net n)%Q w) in
    match respond net n q countrycodes with
    | Fault e => (Raise e, w')
    | Places data => (Ok data, w')
    end.

(** Every path through the body of [for _ in range(3)] returns, so the body
    runs once.  [(None, None)] is [(JNull, JNull)]. *)
Definition _fetch_nominatim (query country_code : string) : M (jval * jval) :=
  let cc := upper country_code in
  let countrycodes :=
    if negb (String.eqb cc "") && Nat.eqb (len cc) 2 then Some (lower cc) else None in
  do elapsed <- (fun w => (Ok (clock w - _LAST_REQUEST_TIME w)%Q, w));
  (if Qltb elapsed RATE_LIMIT_SEC then sleep (RATE_LIMIT_SEC - elapsed)%Q else ret tt) ;;
  (fun w => (Ok tt, set_last_request_time (clock w) w)) ;;
  do data <- http_get query countrycodes;
  match data with
  | (lat, lon) :: _ =>
      if truthy lat && truthy lon then ret (lat, lon) else ret (JNull, JNull)
  | [] => ret (JNull, JNull)
  end.

(** ** Resolver *)

(** [return float(lat), float(lng)] *)
Definition return_floats (lat lng : jval) : M (option num * option num) :=
  do x <- lift (to_float lat);
  do y <- lift (to_float lng);
  ret (Some x, Some y).

(** [for fallback in candidates: lat, lng = _fetch_nominatim(fallback, cc);
    if lat and lng: <on_hit>].  [on_hit] ends in [return], so a hit leaves the
    loop with [Some] of its value; [None] means the loop ran to its end. *)
Fixpoint for_fallbacks {R} (cc : string) (on_hit : jval -> jval -> M R)
    (candidates : list string) : M (option R) :=
  match candidates with
  | [] => ret None
  | fallback :: rest =>
      do found <- _fetch_nominatim fallback cc;
      let '(lat, lng) := found in
      if truthy lat && truthy lng
      then (do r <- on_hit lat lng; ret (Some r))
      else for_fallbacks cc on_hit rest
  end.

Definition geocode_address (address country_code : option string)
    (skip_api fallbacks : bool) : M (option num * option num) :=
  match build_query address country_code with
  | None => ret (None, None)
  | Some query0 =>
      let query := correct_query query0 in
      let cc := upper (or_empty country_code) in
      do cache <- _load_cache;
      match cache !! query with
      | Some (Resolved lat lng) =>
          if truthy lat && truthy lng then return_floats lat lng
          else ret (None, None)
      | Some Negative =>
          if skip_api then ret (None, None)
          else if fallbacks then
            do hit <- for_fallbacks cc
                        (fun lat lng =>
                           _save_cache (<[query := Resolved lat lng]> cache) ;;
                           return_floats lat lng)
                        (_fallback_queries query);
            match hit with
            | Some r => ret r
            | None => ret (None, None)
            end
          else ret (None, None)
      | None =>
          if skip_api then ret (None, None)
          else
            do found <- _fetch_nominatim query cc;
            let '(lat, lng) := found in
            if truthy lat && truthy lng then
              do cache <- _load_cache;
              _save_cache (<[query := Resolved lat lng]> cache) ;;
              return_floats lat lng
            else
              do hit <- (if fallbacks then
                           for_fallbacks cc
                             (fun lat lng =>
                                do cache <- _load_cache;
                                _save_cache (<[query := Resolved lat lng]> cache) ;;
                                return_floats lat lng)
                             (_fallback_queries query)
                         else ret None);
              match hit with
              | Some r => ret r
              | None =>
                  do cache <- _load_cache;
                  _save_cache (<[query := Negative]> cache) ;;
                  ret (None, None)
              end
      end
  end.

(** Two parts of the body of [geocode_address], named for the proofs: what
    it does with a hit on the absent path, and everything after the first
    [_fetch_nominatim] of an absent query. *)
Definition store_and_return (query : string) (lat lng : jval)
  : M (option num * option num) :=
  do cache <- _load_cache;
  _save_cache (<[query := Resolved lat lng]> cache) ;;
  return_floats lat lng.

Definition after_first_fetch (query cc : string) (fallbacks : bool)
    (found : jval * jval) : M (option num * option num) :=
  let '(lat, lng) := found in
  if truthy lat && truthy lng then store_and_return query lat lng
  else
    do hit <- (if fallbacks then
                 for_fallbacks cc (store_and_return query)
                   (_fallback_queries query)
               else ret None);
    match hit with
    | Some r => ret r
    | None =>
        do cache <- _load_cache;
        _save_cache (<[query := Negative]> cache) ;;
        ret (None, None)
    end.

(** ** Venue resolver *)

Definition normalize_location (location : string) : string :=
  if String.eqb location "" || String.eqb (strip location) "" then ""
  else String.concat " " (words (replace_newlines location)).

(** [event_location_fallbacks(location, country_code)] is a pure function
    from two strings to a list of candidate addresses; the resolver uses
    nothing of it but that list, so the resolver is given for an arbitrary
    such function and its properties hold for every one. *)
Variable event_location_fallbacks : string -> string -> list string.

Definition both_present (r : option num * option num) : bool :=
  match r with (Some _, Some _) => true | _ => false end.

(** The loop of [geocode_event_location] over the venue candidates; [None]
    means it ran to its end. *)
Fixpoint for_event_fallbacks (orig_key : option string) (country_code : string)
    (candidates : list string) : M (option (option num * option num)) :=
  match candidates with
  | [] => ret None
  | fallback :: rest =>
      let fallback_key := build_query (Some fallback) (Some country_code) in
      if match fallback_key with None => true | Some _ => false end
         || bool_decide (fallback_key = orig_key)
      then for_event_fallbacks orig_key country_code rest
      else
        do r <- geocode_address (Some fallback) (Some country_code) false false;
        if both_present r then
          match r, orig_key with
          | (Some x, Some y), Some key =>
              do cache <- _load_cache;
              _save_cache (<[key := Resolved (JNum x) (JNum y)]> cache) ;;
              ret (Some r)
          | _, _ => ret (Some r)
          end
        else for_event_fallbacks orig_key country_code rest
  end.

Definition geocode_event_location (location : option string)
    (country_code : string) (skip_api : bool) : M (option num * option num) :=
  let addr :=
    match location with
    | Some l => if String.eqb l "" then "" else normalize_location l
    | None => ""
    end in
  if String.eqb addr "" then ret (None, None)
  else
    do r <- geocode_address (Some addr) (Some country_code) skip_api true;
    if both_present r then ret r
    else if skip_api then ret (None, None)
    else
      let orig_key := build_query (Some addr) (Some country_code) in
      do hit <- for_event_fallbacks orig_key country_code
                  (event_location_fallbacks addr country_code);
      match hit with
      | Some r' => ret r'
      | None => ret (None, None)
      end.

(** ** Sequences of resolver calls *)

Inductive op :=
| Resolve (address country_code : option string) (skip_api fallbacks : bool)
| VenueResolve (location : option string) (country_code : string) (skip_api : bool).

Definition run_op (o : op) : M (option num * option num) :=
  match o with
  | Resolve a c s f => geocode_address a c s f
  | VenueResolve l c s => geocode_event_location l c s
  end.

(** The world after a batch of calls, each started where the previous one
    stopped (by returning or by raising). *)
Definition run_ops (os : list op) (w : World) : World :=
  foldl (fun w o => (run_op o w).2) w os.

End WithNetwork.

(** ** Views of the world *)

(** The persisted entry of a key. *)
Definition cache_lookup (w : World) (key : string) : option entry :=
  match cache_file w with
  | Json data => data !! key
  | _ => None
  end.

(** The GETs issued so far, oldest first, each with its time. *)
Definition requests (w : World) : list (Q * string) :=
  omap (fun e => match e with Get t q _ => Some (t, q) | Sleep _ => None end)
       (trace w).

(** The [countrycodes] parameter [_fetch_nominatim] sends for a code. *)
Definition countrycodes_of (country_code : string) : option string :=
  let cc := upper country_code in
  if negb (String.eqb cc "") && Nat.eqb (len cc) 2 then Some (lower cc) else None.

(** What [_fetch_nominatim] makes of a response. *)
Definition answer (r : response) : result (jval * jval) :=
  match r with
  | Fault e => Raise e
  | Places [] => Ok (JNull, JNull)
  | Places ((lat, lon) :: _) =>
      if truthy lat && truthy lon then Ok (lat, lon) else Ok (JNull, JNull)
  end.

(** A provider that answers a request the same way whenever it is asked. *)
Definition stationary (net : Network) : Prop :=
  forall n m q c, respond net n q c = respond net m q c.

(** The cache file holds exactly the purged mapping [c], as it does after a
    load that returned [c]. *)
Definition settled (w : World) (c : gmap string entry) : Prop :=
  purge_free c /\
  (cache_file w = Json c \/
   (c = ∅ /\ (cache_file w = NotJson \/
              (cache_file w = Missing /\ legacy_file w = Missing)))).




(** A sleep lasts at least as long as asked and a GET takes no negative
    time. *)
Definition punctual (net : Network) : Prop :=
  forall n, (0 <= oversleep net n)%Q /\ (0 <= latency net n)%Q.


(** Two worlds with the same files. *)
Definition same_files (w w' : World) : Prop :=
  cache_file w' = cache_file w /\ legacy_file w' = legacy_file w.

End Engine.

Notation "'do' x <- m ; k" := (bind m (fun x => k))
  (at level 10, x name, m at level 100, k at level 200).
Notation "m ;; k" := (bind m (fun _ => k))
  (at level 100, k at level 200, right associativity).

(** ** A stand-in for [float] used by the examples: decimal literals
    [digits] or [digits.digits], read as rationals. *)

Fixpoint digits_value (s : string) (acc : Z) : option Z :=
  match s with
  | EmptyString => Some acc
  | String c s' =>
      if is_digit c
      then digits_value s' (10 * acc + Z.of_nat (code c - 48))%Z
      else None
  end.

Fixpoint split_at_dot (s int_part : string) : string * option string :=
  match s with
  | EmptyString => (srev int_part, None)
  | String c s' =>
      if Ascii.eqb c "." then (srev int_part, Some s')
      else split_at_dot s' (String c int_part)
  end.

Definition decimal_of_str (s : string) : option Q :=
  match split_at_dot s EmptyString with
  | (EmptyString, _) => None
  | (i, None) => z ← digits_value i 0%Z; Some (inject_Z z)
  | (i, Some f) =>
      z ← digits_value (i +:+ f) 0%Z;
      Some (z # Pos.of_nat (10 ^ String.length f))
  end.

Definition decimal_float : PyFloat :=
  {| num := Q;
     float_of_str := decimal_of_str;
     num_truthy := fun x => negb (Qeq_bool x 0) |}.

(** ** Calls that keep a relation between the world before and after *)

(** [stable R m]: running [m] takes every world to an [R]-related one,
    whether it returns or raises. *)
Definition stable `{PyFloat} (R : World -> World -> Prop) {A} (m : M A) : Prop :=
  forall w, R w (m w).2.

(** The clock, the limiter and the log are as before. *)
Definition same_timing `{PyFloat} (w w' : World) : Prop :=
  clock w' = clock w /\ _LAST_REQUEST_TIME w' = _LAST_REQUEST_TIME w /\
  trace w' = trace w.


(** [n] times [RATE_LIMIT_SEC]. *)
Fixpoint times_rate (n : nat) : Q :=
  match n with
  | O => 0%Q
  | S k => (RATE_LIMIT_SEC + times_rate k)%Q
  end.


(** What C1 says of two calls in a row from [w]: the same value both times
    and no GET during the second. *)
Definition resolve_idempotent `{PyFloat} (net : Network)
    (address country_code : option string) (fallbacks : bool) (w : World) : Prop :=
  let first := geocode_address net address country_code false fallbacks w in
  let second :=
    geocode_address net address country_code false fallbacks first.2 in
  second.1 = first.1 /\ requests second.2 = requests first.2.

(** What holds of a second call from [w1], the world a first call that
    returned [r] for query [q] left: it returns [r] again; if [r] is a
    coordinate nothing at all happens; the first call left an entry for the
    query, and the GETs of the second call are exactly, in order, the
    fallback candidates of the query when that entry is [Negative] and
    fallbacks are enabled, and none at all otherwise; the query itself is
    not among the candidates. *)
Definition second_call_agrees `{PyFloat} (net : Network)
    (address country_code : option string) (fallbacks : bool) (q : string)
    (r : option num * option num) (w1 : World) : Prop :=
  exists w2 new,
    geocode_address net address country_code false fallbacks w1 = (Ok r, w2) /\
    (both_present r = true -> w2 = w1) /\
    requests w2 = requests w1 ++ new /\
    is_Some (cache_lookup w1 (correct_query q)) /\
    List.map snd new =
      match cache_lookup w1 (correct_query q) with
      | Some Negative =>
          if fallbacks then _fallback_queries (correct_query q) else []
      | _ => []
      end /\
    correct_query q ∉ _fallback_queries (correct_query q).








(** The operation was called with [skip_api]. *)
Definition skips (o : op) : bool :=
  match o with
  | Resolve _ _ skip_api _ => skip_api
  | VenueResolve _ _ skip_api => skip_api
  end.

(** A resolver result is a whole coordinate or none at all. *)
Definition whole `{PyFloat} (r : option num * option num) : Prop :=
  r = (None, None) \/ both_present r = true.

(** [yields P m]: whenever [m] returns, its value satisfies [P]. *)
Definition yields `{PyFloat} {A} (P : A -> Prop) (m : M A) : Prop :=
  forall w r w', m w = (Ok r, w') -> P r.

(** No file was lost: the legacy file is as it was and a cache file that
    existed still exists. *)
Definition files_kept `{PyFloat} (w w' : World) : Prop :=
  legacy_file w' = legacy_file w /\
  (exists_file (cache_file w) = true -> exists_file (cache_file w') = true).

(** A token as [str.split()] yields them: non-empty, without whitespace. *)
Definition is_word (w : string) : Prop := w <> "" /\ no_space w = true.

(** ** The candidate accumulator of [event_location_fallbacks]

    The closures [add] and [add_with_split] update the list [fallbacks] and
    the set [seen] of the enclosing call; here the pair is passed in and
    returned. *)

Definition add (country : string) (q : string)
    (st : list string * gset string) : list string * gset string :=
  let q := strip q in
  if String.eqb q "" || Nat.ltb (len q) 5 then st
  else if isdigit (strip (remove_char "." (remove_char "," q))) then st
  else
    let q := if negb (endswith q country) then q +:+ ", " +:+ country else q in
    if bool_decide (q ∈ st.2) then st
    else (st.1 ++ [q], st.2 ∪ {[q]}).

Definition add_with_split (country : string) (q : string)
    (st : list string * gset string) : list string * gset string :=
  if endswith q ", Split" || contains ", Split" q then add country q st
  else add country (q +:+ ", Split") st.

(** [fallbacks] holds each string once and [seen] holds exactly its
    elements. *)
Definition in_step (st : list string * gset string) : Prop :=
  NoDup st.1 /\ forall x, x ∈ st.2 <-> x ∈ st.1.

(** ** Sample worlds for the examples *)

Section Samples.

#[local] Existing Instance decimal_float.

Definition split_coords : entry := Resolved (JStr "43.5081") (JStr "16.4402").

Definition world_with (cache legacy : file) : World :=
  {| cache_file := cache; legacy_file := legacy; clock := 1000;
     _LAST_REQUEST_TIME := 0; trace := [] |}.

(** A cache written before "Velika dvorana, Croatia" entered the correction
    table. *)
Definition stale_cache : gmap string entry :=
  <["Velika dvorana, Croatia" := split_coords]>
    (<["Split, Croatia" := split_coords]> ∅).

Definition stale_world : World := world_with (Json stale_cache) Missing.

Definition corrupt_world : World := world_with NotJson Missing.

(** A cache file cut inside a multi-byte character, as a write interrupted
    in the middle of a non-ASCII letter leaves it. *)
Definition truncated_world : World := world_with Undecodable Missing.

(** A cache holding a coordinate on the equator: [lat] is the number 0. *)
Definition zero_lat : jval := JNum 0%Q.
Definition quito_lng : jval := JStr "-78.4678".

Definition equator_cache : gmap string entry :=
  <["Quito, EC" := Resolved zero_lat quito_lng]> ∅.

Definition equator_world : World := world_with (Json equator_cache) Missing.

Definition fresh_world : World := world_with Missing Missing.

(** A provider that finds nothing, and one that finds only
    [only_query]; both answer at once. *)
Definition silent_net : Network :=
  {| respond := fun _ _ _ => Places [];
     oversleep := fun _ => 0%Q;
     latency := fun _ => 0%Q |}.

(** The cache holds [Negative] for the query built from [address] and "HR". *)
Definition negative_world (address : string) : World :=
  world_with (Json (<[address +:+ ", Croatia" := Negative]> ∅)) Missing.

Definition net_finding (only_query lat lon : string) : Network :=
  {| respond := fun _ q _ =>
       if String.eqb q only_query then Places [(JStr lat, JStr lon)]
       else Places [];
     oversleep := fun _ => 0%Q;
     latency := fun _ => 0%Q |}.

(** A cache whose [lat] for "Split, Croatia" is no number. *)
Definition unparsable_cache : gmap string entry :=
  <["Split, Croatia" := Resolved (JStr "north") (JStr "16.4402")]> ∅.

Definition unparsable_world : World := world_with (Json unparsable_cache) Missing.

End Samples.

(** * Statements under test *)

(** The reading of "not exactly two letters": two characters, both in
    [[a-zA-Z]]. *)
Definition two_letter_code (country_code : option string) : bool :=
  match country_code with
  | Some (String a (String b EmptyString)) => is_letter a && is_letter b
  | _ => false
  end.

Definition build_query_none_exactly_when_invalid
    (address country_code : option string) : Prop :=
  build_query address country_code = None <->
  (strip (or_empty address) = "" \/ two_letter_code country_code = false).


(** Every candidate built by [_fallback_queries], before the final filter,
    is a join of at least two parts. *)
Definition comma_joined (x : string) : Prop :=
  exists a b, x = a +:+ ", " +:+ b.

(** The scenario of C2 for an address: the cache holds [Negative] for the
    address's query, the provider finds only "Teren, Croatia", and the call
    with fallbacks returns that coordinate and stores it under the address's
    own query. *)
Definition teren_scenario (address : string) : Prop :=
  let run :=
    @geocode_address decimal_float
      (net_finding "Teren, Croatia" "43.5081" "16.4402")
      (Some address) (Some "HR") false true (negative_world address) in
  run.1 = Ok (Some (435081 # 10000), Some (164402 # 10000)) /\
  cache_lookup run.2 (address +:+ ", Croatia")
  = Some (@Resolved decimal_float (JStr "43.5081") (JStr "16.4402")).

(** The only length threshold of the module is the one of
    [event_location_fallbacks.add]: [len(q) < 5] rejects. *)
Definition MIN_CANDIDATE_LEN : nat := 5.

Definition fallbacks_clean (query : string) : Prop :=
  let l := _fallback_queries query in
(query ∉ l) /\ NoDup l /\
  Forall (fun x => isdigit x = false) l /\
  Forall (fun x => MIN_CANDIDATE_LEN <= len x) l.

(** * Properties *)

(** ** Query normalizer *)

(** C7, as stated, fails: a two-character code that is not made of letters
    is accepted. *)
Lemma build_query_accepts_digit_code :
  ~ build_query_none_exactly_when_invalid (Some "Split") (Some "12").
Proof.
  unfold build_query_none_exactly_when_invalid.
  intros [_ Hback].
  assert (Hq : build_query (Some "Split") (Some "12") = None)
    by (apply Hback; right; reflexivity).
  vm_compute in Hq. discriminate Hq.
Qed.

Example build_query_digit_code :
  build_query (Some "Split") (Some "12") = Some "Split, 12".
Proof. reflexivity. Qed.

(** C7 (amended): [build_query] returns [None] exactly when the address is
    absent or empty after trimming, or the upper-cased country code is not
    exactly two characters long (an absent code has length zero); every
    other input gives a non-empty query. *)
Theorem build_query_none_iff (address country_code : option string) :
  (build_query address country_code = None <->
   (strip (or_empty address) = "" \/ len (upper (or_empty country_code)) <> 2))
  /\ build_query address country_code <> Some "".
Proof.
  unfold build_query.
  set (cc := upper (or_empty country_code)).
  set (q := strip (or_empty address)).
  set (country_name := table_get COUNTRY_NAMES cc cc).
  destruct (String.eqb_spec cc "") as [Hcc | Hcc]; cbn [orb negb].
  - split; [| discriminate].
    split; [intros _ | reflexivity]. right. rewrite Hcc. simpl. lia.
  - destruct (Nat.eqb_spec (len cc) 2) as [Hlen | Hlen]; cbn [orb negb].
    + destruct (String.eqb_spec q "") as [Hq | Hq].
      * split; [| discriminate]. split; [intros _; now left | reflexivity].
      * assert (Hne : forall t, q +:+ t <> "").
        { intros t. destruct q; [congruence | discriminate]. }
        destruct (endswith q country_name); cbn [negb].
        -- split; [| intros E; injection E; exact Hq].
           split; [discriminate | intros [? | ?]; [contradiction | lia]].
        -- split; [| intros E; injection E; apply Hne].
           split; [discriminate | intros [? | ?]; [contradiction | lia]].
    + split; [| discriminate].
      split; [intros _; now right | reflexivity].
Qed.

(** ** Generic fallback generator *)

Lemma all_digits_comma (a b : string) : all_digits (a +:+ ", " +:+ b) = false.
Proof.
  induction a as [| c a IH]; [reflexivity |].
  change (all_digits (String c (a +:+ ", " +:+ b)) = false).
  cbn [all_digits]. rewrite IH. apply andb_false_r.
Qed.

Lemma isdigit_comma (a b : string) : isdigit (a +:+ ", " +:+ b) = false.
Proof.
  unfold isdigit. pose proof (all_digits_comma a b) as Hd.
  destruct (a +:+ ", " +:+ b); [reflexivity | exact Hd].
Qed.

Lemma len_app (a b : string) : len (a +:+ b) = len a + len b.
Proof.
  induction a as [| c a IH]; [reflexivity |].
  change (len (String c (a +:+ b)) = len (String c a) + len b).
  cbn [len]. destruct (is_continuation c); lia.
Qed.

Lemma len_comma (a b : string) : 2 <= len (a +:+ ", " +:+ b).
Proof. rewrite !len_app. change (len ", ") with 2. lia. Qed.

Lemma join_two (l : list string) :
  2 <= length l -> exists a b, join l = a +:+ ", " +:+ b.
Proof.
  destruct l as [| x [| y t]]; cbn [length]; try lia.
  intros _. exists x, (join (y :: t)). reflexivity.
Qed.

Lemma last_n_length {A} (n : nat) (l : list A) :
  n <= length l -> length (last_n n l) = n.
Proof. intros Hn. unfold last_n. rewrite length_skipn. lia. Qed.

Lemma comma_joined_facts (x : string) :
  comma_joined x -> x <> "" /\ isdigit x = false /\ 2 <= len x.
Proof.
  intros (a & b & ->). split; [| split].
  - destruct a; discriminate.
  - apply isdigit_comma.
  - apply len_comma.
Qed.

(** C3, as stated, fails: the generator does not deduplicate. *)
Lemma fallback_queries_duplicate :
  build_query (Some "A, A, A") (Some "HR") = Some "A, A, A, Croatia" /\
  ~ fallbacks_clean "A, A, A, Croatia".
Proof.
  split; [reflexivity |].
  intros (_ & Hnd & _). vm_compute in Hnd.
  apply NoDup_cons in Hnd as [Hnotin _]. apply Hnotin. left.
Qed.

(** The shortest candidates are below the venue threshold as well. *)
Example fallback_queries_short :
  _fallback_queries "a, b, c" = ["b, c"] /\ len "b, c" < MIN_CANDIDATE_LEN.
Proof. split; [reflexivity | vm_compute; lia]. Qed.

(** C3 (amended): every element of the generic fallback list differs from
    the input query, is non-empty, is not purely numeric and consists of at
    least two comma-joined parts (so has at least two characters); equal
    elements can occur and no longer minimum length is enforced. *)
Theorem fallback_queries_filtered (query : string) :
  Forall (fun x => x <> query /\ x <> "" /\ isdigit x = false
                   /\ comma_joined x /\ 2 <= len x)
         (_fallback_queries query).
Proof.
  unfold _fallback_queries.
  destruct (String.eqb query "" || negb (contains ", " query)); [constructor |].
  set (parts := List.map strip (split_comma_space query)).
  destruct (Nat.ltb_spec (length parts) 2) as [Hlt | Hge]; [constructor |].
  apply List.Forall_forall. intros x Hin.
  apply List.filter_In in Hin as [Hin Hkeep].
  apply andb_true_iff in Hkeep as [_ Hneq].
  apply negb_true_iff in Hneq. apply String.eqb_neq in Hneq.
  assert (Hj : comma_joined x).
  { repeat (apply List.in_app_or in Hin as [Hin | Hin]).
    - destruct (Nat.leb 4 (length parts)); [| destruct Hin].
      destruct Hin as [<- | []]. apply join_two. cbn [length]. lia.
    - destruct (Nat.leb_spec 3 (length parts)) as [H3 | H3]; [| destruct Hin].
      destruct Hin as [<- | []]. apply join_two.
      rewrite last_n_length by lia. lia.
    - destruct (Nat.leb 2 (length parts)); [| destruct Hin].
      destruct Hin as [<- | []]. apply join_two.
      rewrite last_n_length by lia. lia.
    - destruct (Nat.leb 3 (length parts)); [| destruct Hin].
      destruct (negb _ && negb _); [| destruct Hin].
      destruct Hin as [<- | []]. eexists _, _. reflexivity. }
  destruct (comma_joined_facts x Hj) as (Hne & Hd & Hl).
  repeat split; assumption.
Qed.

(** ** Correction table *)

Lemma table_get_default_or_value (d : list (string * string)) (k dflt : string) :
  (table_get d k dflt = dflt /\ k ∉ List.map fst d)
  \/ table_get d k dflt ∈ List.map snd d.
Proof.
  induction d as [| [k' v] d IH]; cbn [table_get List.map fst snd].
  - left. split; [reflexivity |]. intros Hin. inversion Hin.
  - destruct (String.eqb_spec k k') as [-> | Hne].
    + right. left.
    + destruct IH as [[Hd Hk] | Hv].
      * left. split; [exact Hd |]. intros Hin.
        apply elem_of_cons in Hin as [? | ?]; contradiction.
      * right. right. exact Hv.
Qed.

Lemma corrections_not_purged :
  Forall (fun v => v ∉ KEYS_TO_PURGE_FROM_CACHE)
         (List.map snd CACHE_QUERY_CORRECTIONS).
Proof. apply (bool_decide_unpack _). vm_compute. exact I. Qed.

(** A corrected query is never one of the known-bad keys. *)
Lemma correct_query_not_purged (query : string) :
  correct_query query ∉ KEYS_TO_PURGE_FROM_CACHE.
Proof.
  unfold correct_query.
  destruct (table_get_default_or_value CACHE_QUERY_CORRECTIONS query query)
    as [[-> Hk] | Hv].
  - exact Hk.
  - pose proof corrections_not_purged as Hall.
    rewrite Forall_forall in Hall. apply Hall. exact Hv.
Qed.

(** ** Cache store *)

Section CacheStore.

Context `{PyFloat}.

Lemma purge_step_lookup (st : gmap string entry * bool) (key k : string) :
  (purge_step st key).1 !! k = if decide (k = key) then None else st.1 !! k.
Proof.
  unfold purge_step. destruct (decide (is_Some (st.1 !! key))) as [Hs | Hn].
  - cbn [fst]. destruct (decide (k = key)) as [-> | Hne].
    + apply lookup_delete_eq.
    + apply lookup_delete_ne. congruence.
  - destruct (decide (k = key)) as [-> | Hne]; [| reflexivity].
    destruct (st.1 !! key) eqn:E; [| reflexivity].
    exfalso. apply Hn. eauto.
Qed.

Lemma purge_fold_lookup (keys : list string) (st : gmap string entry * bool)
    (k : string) :
  (foldl purge_step st keys).1 !! k =
  if decide (k ∈ keys) then None else st.1 !! k.
Proof.
  revert st. induction keys as [| key keys IH]; intros st; cbn [foldl].
  - destruct (decide (k ∈ [])) as [Hin | _]; [| reflexivity].
    inversion Hin.
  - rewrite IH, purge_step_lookup.
    destruct (decide (k ∈ keys)) as [Hin | Hnin].
    + rewrite decide_True by (right; exact Hin). reflexivity.
    + destruct (decide (k = key)) as [-> | Hne].
      * rewrite decide_True by left. reflexivity.
      * rewrite decide_False; [reflexivity |].
        intros Hin. apply elem_of_cons in Hin as [? | ?]; contradiction.
Qed.

Lemma purge_step_flag (st : gmap string entry * bool) (key : string) :
  (purge_step st key).2 = false -> st.2 = false /\ (purge_step st key).1 = st.1.
Proof.
  unfold purge_step. destruct (decide (is_Some (st.1 !! key))); cbn [fst snd].
  - discriminate.
  - intros ->. split; reflexivity.
Qed.

Lemma purge_fold_flag (keys : list string) (st : gmap string entry * bool) :
  (foldl purge_step st keys).2 = false ->
  st.2 = false /\ (foldl purge_step st keys).1 = st.1.
Proof.
  revert st. induction keys as [| key keys IH]; intros st; cbn [foldl].
  - intros ->. split; reflexivity.
  - intros Hf. destruct (IH _ Hf) as [Hs ->].
    apply purge_step_flag in Hs as [Hs ->]. split; [exact Hs | reflexivity].
Qed.

Lemma purge_keys_lookup (stored : gmap string entry) (k : string) :
  (purge_keys stored).1 !! k =
  if decide (k ∈ KEYS_TO_PURGE_FROM_CACHE) then None else stored !! k.
Proof. unfold purge_keys. apply purge_fold_lookup. Qed.

Lemma purge_keys_clean (stored : gmap string entry) :
  (purge_keys stored).2 = false -> (purge_keys stored).1 = stored.
Proof.
  unfold purge_keys. intros Hf.
  destruct (purge_fold_flag KEYS_TO_PURGE_FROM_CACHE (stored, false) Hf) as [_ E].
  exact E.
Qed.

Lemma purge_fold_absent (keys : list string) (st : gmap string entry * bool) :
  (forall k, k ∈ keys -> st.1 !! k = None) -> foldl purge_step st keys = st.
Proof.
  revert st. induction keys as [| key keys IH]; intros st Habs; cbn [foldl].
  - reflexivity.
  - assert (Hstep : purge_step st key = st).
    { unfold purge_step. rewrite decide_False; [reflexivity |].
      rewrite (Habs key) by left. intros [? ?]. discriminate. }
    rewrite Hstep. apply IH. intros k Hk. apply Habs. right. exact Hk.
Qed.

Lemma purge_keys_absent (data : gmap string entry) :
  purge_free data -> purge_keys data = (data, false).
Proof.
  intros Habs. unfold purge_keys.
  apply (purge_fold_absent KEYS_TO_PURGE_FROM_CACHE (data, false)). exact Habs.
Qed.

Lemma purge_keys_free (stored : gmap string entry) :
  purge_free (purge_keys stored).1.
Proof.
  intros k Hk. rewrite purge_keys_lookup. rewrite decide_True by exact Hk.
  reflexivity.
Qed.

Lemma purge_keys_other (stored : gmap string entry) (k : string) :
  k ∉ KEYS_TO_PURGE_FROM_CACHE -> (purge_keys stored).1 !! k = stored !! k.
Proof.
  intros Hk. rewrite purge_keys_lookup. rewrite decide_False by exact Hk.
  reflexivity.
Qed.

#[local] Opaque purge_keys.

Lemma load_cache_json (w : World) (stored : gmap string entry) :
  cache_file w = Json stored ->
  _load_cache w = (Ok (purge_keys stored).1, after_purge stored w).
Proof.
  intros Hf. unfold _load_cache, bind, _migrate_legacy_cache, after_purge.
  rewrite Hf. cbn [exists_file negb]. rewrite andb_false_r. rewrite Hf.
  destruct (purge_keys stored) as [data' purged]. cbn [fst snd].
  destruct purged; reflexivity.
Qed.

Lemma after_purge_file (w : World) (stored : gmap string entry) :
  cache_file w = Json stored ->
  cache_file (after_purge stored w) = Json (purge_keys stored).1.
Proof.
  intros Hf. unfold after_purge.
  destruct (purge_keys stored).2 eqn:Hp; [reflexivity |].
  rewrite Hf. f_equal. symmetry. apply purge_keys_clean. exact Hp.
Qed.

Lemma load_cache_not_json (w : World) :
  cache_file w = NotJson -> _load_cache w = (Ok ∅, w).
Proof.
  intros Hf. unfold _load_cache, bind, _migrate_legacy_cache.
  rewrite Hf. cbn [exists_file negb]. rewrite andb_false_r. rewrite Hf.
  reflexivity.
Qed.

Lemma load_cache_undecodable (w : World) :
  cache_file w = Undecodable -> _load_cache w = (Raise UnicodeDecodeError, w).
Proof.
  intros Hf. unfold _load_cache, bind, _migrate_legacy_cache.
  rewrite Hf. cbn [exists_file negb]. rewrite andb_false_r. rewrite Hf.
  reflexivity.
Qed.

Lemma load_cache_scalar (w : World) :
  cache_file w = JsonScalar -> _load_cache w = (Raise TypeError, w).
Proof.
  intros Hf. unfold _load_cache, bind, _migrate_legacy_cache.
  rewrite Hf. cbn [exists_file negb]. rewrite andb_false_r. rewrite Hf.
  reflexivity.
Qed.

Lemma load_cache_missing (w : World) :
  cache_file w = Missing ->
  _load_cache w =
  match legacy_file w with
  | Json stored =>
      (Ok (purge_keys stored).1,
       after_purge stored (set_cache_file (Json stored) w))
  | JsonScalar => (Raise TypeError, set_cache_file JsonScalar w)
  | NotJson => (Raise JSONDecodeError, w)
  | Undecodable => (Raise UnicodeDecodeError, w)
  | Missing => (Ok ∅, w)
  end.
Proof.
  intros Hf. destruct (legacy_file w) as [| | stored | |] eqn:Hl.
  - unfold _load_cache, bind, _migrate_legacy_cache. rewrite Hf, Hl.
    cbn [exists_file negb andb]. rewrite Hf. reflexivity.
  - unfold _load_cache, bind, _migrate_legacy_cache. rewrite Hf, Hl.
    reflexivity.
  - unfold _load_cache at 1. unfold bind at 1. unfold _migrate_legacy_cache.
    rewrite Hf, Hl. cbn [exists_file negb andb].
    pose proof (load_cache_json (set_cache_file (Json stored) w) stored eq_refl) as Hj.
    unfold _load_cache, bind, _migrate_legacy_cache in Hj.
    cbn [set_cache_file cache_file legacy_file exists_file negb] in Hj.
    rewrite andb_false_r in Hj. exact Hj.
  - unfold _load_cache, bind, _migrate_legacy_cache. rewrite Hf, Hl.
    reflexivity.
  - unfold _load_cache, bind, _migrate_legacy_cache. rewrite Hf, Hl.
    reflexivity.
Qed.


Lemma ok_pair_inv {A} (a a' : A) (w w' : World) :
  (Ok a, w) = (Ok a', w') -> a = a' /\ w = w'.
Proof. intros E. injection E as -> ->. split; reflexivity. Qed.

Lemma after_purge_frame (w : World) (stored : gmap string entry) :
  clock (after_purge stored w) = clock w /\
  _LAST_REQUEST_TIME (after_purge stored w) = _LAST_REQUEST_TIME w /\
  trace (after_purge stored w) = trace w /\
  legacy_file (after_purge stored w) = legacy_file w.
Proof.
  unfold after_purge. destruct (purge_keys stored).2; repeat split.
Qed.

Lemma load_cache_settled (w : World) (c : gmap string entry) :
  cache_file w = Json c -> purge_free c -> _load_cache w = (Ok c, w).
Proof.
  intros Hf Hfree. rewrite (load_cache_json w c Hf). unfold after_purge.
  rewrite (purge_keys_absent c Hfree). reflexivity.
Qed.

Lemma load_cache_json_ok (w : World) (stored : gmap string entry) :
  cache_file w = Json stored ->
  purge_free (purge_keys stored).1 /\
  (forall k, cache_lookup (after_purge stored w) k = (purge_keys stored).1 !! k) /\
  _load_cache (after_purge stored w)
  = (Ok (purge_keys stored).1, after_purge stored w) /\
  clock (after_purge stored w) = clock w /\
  _LAST_REQUEST_TIME (after_purge stored w) = _LAST_REQUEST_TIME w /\
  trace (after_purge stored w) = trace w.
Proof.
  intros Hf.
  pose proof (after_purge_file w stored Hf) as Hfile.
  pose proof (purge_keys_free stored) as Hfree.
  pose proof (after_purge_frame w stored) as (Hc & Hl & Ht & _).
  split; [exact Hfree |]. split; [| split; [| auto]].
  - intros k. unfold cache_lookup. rewrite Hfile. reflexivity.
  - apply load_cache_settled; assumption.
Qed.

(** What a returning load leaves behind: a purged mapping that is exactly
    what the cache file holds, so that the next load returns it again, and
    nothing else of the world touched. *)
Lemma load_cache_ok (w w1 : World) (cache : gmap string entry) :
  _load_cache w = (Ok cache, w1) ->
  purge_free cache /\
  (forall k, cache_lookup w1 k = cache !! k) /\
  _load_cache w1 = (Ok cache, w1) /\
  clock w1 = clock w /\ _LAST_REQUEST_TIME w1 = _LAST_REQUEST_TIME w /\
  trace w1 = trace w.
Proof.
  intros Hload. destruct (cache_file w) as [| | stored | |] eqn:Hf;
    [| | | rewrite (load_cache_undecodable w Hf) in Hload; discriminate Hload
     | rewrite (load_cache_scalar w Hf) in Hload; discriminate Hload].
  - rewrite (load_cache_missing w Hf) in Hload.
    destruct (legacy_file w) as [| | stored | |] eqn:Hl;
      [| | | discriminate Hload | discriminate Hload].
    + apply ok_pair_inv in Hload as [E1 E2]; subst cache w1. split; [intros k _; apply lookup_empty |].
      split; [| split].
      * intros k. unfold cache_lookup. rewrite Hf. symmetry. apply lookup_empty.
      * rewrite (load_cache_missing w Hf), Hl. reflexivity.
      * repeat split.
    + discriminate Hload.
    + apply ok_pair_inv in Hload as [E1 E2]; subst cache w1.
      pose proof (load_cache_json_ok (set_cache_file (Json stored) w) stored
                    eq_refl) as (H1 & H2 & H3 & H4 & H5 & H6).
      cbn [set_cache_file clock _LAST_REQUEST_TIME trace] in H4, H5, H6.
      split; [exact H1 |]. split; [exact H2 |]. split; [exact H3 |].
      split; [exact H4 |]. split; [exact H5 | exact H6].
  - rewrite (load_cache_not_json w Hf) in Hload. apply ok_pair_inv in Hload as [E1 E2]; subst cache w1.
    split; [intros k _; apply lookup_empty |]. split; [| split].
    + intros k. unfold cache_lookup. rewrite Hf. symmetry. apply lookup_empty.
    + apply (load_cache_not_json w Hf).
    + repeat split.
  - rewrite (load_cache_json w stored Hf) in Hload. apply ok_pair_inv in Hload as [E1 E2]; subst cache w1.
    exact (load_cache_json_ok w stored Hf).
Qed.

(** A cache file that is text but not valid JSON loads as the empty store,
    without raising and without touching the file. *)
Theorem load_cache_corrupt_is_empty (w : World) :
  cache_file w = NotJson -> _load_cache w = (Ok ∅, w).
Proof. apply load_cache_not_json. Qed.

(** C5: when [_load_cache] returns, the mapping it returns holds no
    known-bad key and agrees with the file read on every other key; if the
    file read held a known-bad key, the cleaned mapping is what the cache
    file holds on return; in every case the file on return holds no
    known-bad key and the next load returns the same mapping. *)
Theorem load_cache_purges_known_bad_keys (w w' : World)
    (data : gmap string entry) :
  _load_cache w = (Ok data, w') ->
  (forall key, key ∈ KEYS_TO_PURGE_FROM_CACHE ->
     data !! key = None /\ cache_lookup w' key = None) /\
  (forall stored, cache_file w = Json stored ->
     (forall k, k ∉ KEYS_TO_PURGE_FROM_CACHE -> data !! k = stored !! k) /\
     ((exists key, key ∈ KEYS_TO_PURGE_FROM_CACHE /\ is_Some (stored !! key)) ->
      cache_file w' = Json data)) /\
  _load_cache w' = (Ok data, w').
Proof.
  intros Hload.
  destruct (load_cache_ok w w' data Hload) as (Hfree & Hfile & Hnext & _).
  split; [| split].
  - intros key Hkey. split; [apply Hfree; exact Hkey |].
    rewrite Hfile. apply Hfree. exact Hkey.
  - intros stored Hf. rewrite (load_cache_json w stored Hf) in Hload.
    apply ok_pair_inv in Hload as [E1 E2]; subst data w'. split.
    + intros k Hk. apply purge_keys_other. exact Hk.
    + intros _. apply after_purge_file. exact Hf.
  - exact Hnext.
Qed.

End CacheStore.

Lemma load_cache_corrupt_is_empty_witness :
  @_load_cache decimal_float corrupt_world = (Ok ∅, corrupt_world).
Proof.
  apply (@load_cache_corrupt_is_empty decimal_float corrupt_world).
  reflexivity.
Defined.

(** C9: the code at the failing input.  On a cache file that is not UTF-8
    text, which is not valid JSON either, [_load_cache] does not return the
    empty store: it raises [UnicodeDecodeError], which the handler for
    [json.JSONDecodeError] does not catch; and so does a resolve call, even
    one that skips the provider.  (On text that is not valid JSON the load
    does return the empty store.) *)
Theorem load_cache_undecodable_raises :
  @_load_cache decimal_float truncated_world
  = (Raise UnicodeDecodeError, truncated_world) /\
  @geocode_address decimal_float silent_net (Some "Split") (Some "HR") true true
    truncated_world
  = (Raise UnicodeDecodeError, truncated_world) /\
  @_load_cache decimal_float corrupt_world = (Ok ∅, corrupt_world).
Proof. repeat split; reflexivity. Qed.

Lemma load_cache_purges_known_bad_keys_witness :
  (purge_keys stale_cache).1 !! "Velika dvorana, Croatia" = None /\
  @cache_lookup decimal_float (after_purge stale_cache stale_world)
    "Velika dvorana, Croatia" = None.
Proof.
  refine (proj1 (@load_cache_purges_known_bad_keys decimal_float stale_world
                   (after_purge stale_cache stale_world)
                   (purge_keys stale_cache).1 _)
                "Velika dvorana, Croatia" _).
  - apply load_cache_json. reflexivity.
  - left.
Defined.

(** ** Fetcher and resolver *)

Section Resolver.

Context `{PyFloat}.
Variable net : Network.

Lemma settled_load (w : World) (c : gmap string entry) :
  settled w c -> _load_cache w = (Ok c, w).
Proof.
  intros [Hfree [Hf | [-> [Hf | [Hf Hl]]]]].
  - apply load_cache_settled; assumption.
  - apply load_cache_not_json. exact Hf.
  - rewrite (load_cache_missing w Hf), Hl. reflexivity.
Qed.

Lemma settled_same_files (w w' : World) (c : gmap string entry) :
  same_files w w' -> settled w c -> settled w' c.
Proof.
  intros [Hc Hl] [Hfree Hcase]. split; [exact Hfree |].
  rewrite Hc, Hl. exact Hcase.
Qed.

Lemma settled_lookup (w : World) (c : gmap string entry) (k : string) :
  settled w c -> cache_lookup w k = c !! k.
Proof.
  intros [_ [Hf | [-> [Hf | [Hf _]]]]]; unfold cache_lookup; rewrite Hf;
    try reflexivity; symmetry; apply lookup_empty.
Qed.

Lemma settled_save (w : World) (c : gmap string entry) :
  purge_free c -> settled (set_cache_file (Json c) w) c.
Proof. intros Hfree. split; [exact Hfree | left; reflexivity]. Qed.

Lemma load_cache_settles (w w1 : World) (cache : gmap string entry) :
  _load_cache w = (Ok cache, w1) -> settled w1 cache.
Proof.
  intros Hload. destruct (cache_file w) as [| | stored | |] eqn:Hf;
    [| | | rewrite (load_cache_undecodable w Hf) in Hload; discriminate Hload
     | rewrite (load_cache_scalar w Hf) in Hload; discriminate Hload].
  - rewrite (load_cache_missing w Hf) in Hload.
    destruct (legacy_file w) as [| | stored | |] eqn:Hl;
      [| | | discriminate Hload | discriminate Hload].
    + apply ok_pair_inv in Hload as [E1 E2]; subst cache w1.
      split; [intros k _; apply lookup_empty |]. right. split; [reflexivity |].
      right. split; assumption.
    + discriminate Hload.
    + apply ok_pair_inv in Hload as [E1 E2]; subst cache w1.
      split; [apply purge_keys_free |]. left.
      apply after_purge_file. reflexivity.
  - rewrite (load_cache_not_json w Hf) in Hload.
    apply ok_pair_inv in Hload as [E1 E2]; subst cache w1.
    split; [intros k _; apply lookup_empty |]. right. split; [reflexivity |].
    left. exact Hf.
  - rewrite (load_cache_json w stored Hf) in Hload.
    apply ok_pair_inv in Hload as [E1 E2]; subst cache w1.
    split; [apply purge_keys_free |]. left. apply after_purge_file. exact Hf.
Qed.

Lemma purge_free_insert (c : gmap string entry) (k : string) (e : entry) :
  k ∉ KEYS_TO_PURGE_FROM_CACHE -> purge_free c -> purge_free (<[k := e]> c).
Proof.
  intros Hk Hfree k' Hk'. rewrite lookup_insert_ne; [apply Hfree; exact Hk' |].
  intros ->. contradiction.
Qed.

(** *** The fetcher *)

Lemma requests_log_get (w : World) (t : Q) (q : string) (c : option string) :
  requests (log (Get t q c) w) = requests w ++ [(t, q)].
Proof. unfold requests, log. cbn [trace]. rewrite omap_app. reflexivity. Qed.

Lemma requests_log_sleep (w : World) (d : Q) :
  requests (log (Sleep d) w) = requests w.
Proof.
  unfold requests, log. cbn [trace]. rewrite omap_app. cbn.
  apply app_nil_r.
Qed.

(** One fetch: the value is what [answer] makes of the provider's response,
    the files are untouched and exactly one GET, for [q], is logged. *)
Lemma fetch_spec (q cc : string) (w : World) :
  exists n t w',
    _fetch_nominatim net q cc w
    = (answer (respond net n q (countrycodes_of cc)), w') /\
    same_files w w' /\
    requests w' = requests w ++ [(t, q)].
Proof.
  unfold _fetch_nominatim, bind.
  fold (countrycodes_of cc).
  set (w1 := (if Qltb (clock w - _LAST_REQUEST_TIME w) RATE_LIMIT_SEC
              then sleep net (RATE_LIMIT_SEC - (clock w - _LAST_REQUEST_TIME w))
              else ret tt) w).
  assert (Hw1 : exists w1', w1 = (Ok tt, w1') /\ same_files w w1' /\
                            requests w1' = requests w).
  { unfold w1. destruct (Qltb _ _).
    - eexists. split; [reflexivity |]. split; [split; reflexivity |].
      unfold sleep. cbn [snd]. rewrite requests_log_sleep. reflexivity.
    - exists w. split; [reflexivity |]. split; [split; reflexivity |].
      reflexivity. }
  destruct Hw1 as (w1' & -> & [Hc Hl] & Hr).
  unfold http_get.
  set (w2 := set_last_request_time (clock w1') w1').
  exists (length (trace w2)), (clock w2),
    (log (Get (clock w2) q (countrycodes_of cc))
       (set_clock (clock w2 + latency net (length (trace w2)))%Q w2)).
  split; [| split].
  - destruct (respond net (length (trace w2)) q (countrycodes_of cc))
      as [| [| [lat lon] rest]]; cbn [answer]; try reflexivity.
    destruct (truthy lat && truthy lon); reflexivity.
  - split; [exact Hc | exact Hl].
  - rewrite requests_log_get. f_equal. exact Hr.
Qed.

(** *** The resolver after its first load *)

Lemma geocode_address_invalid (a c : option string) (skip fb : bool) (w : World) :
  build_query a c = None ->
  geocode_address net a c skip fb w = (Ok (None, None), w).
Proof. intros Hq. unfold geocode_address. rewrite Hq. reflexivity. Qed.

Lemma geocode_address_load_raises (a c : option string) (skip fb : bool)
    (w w1 : World) (q : string) (e : exn) :
  build_query a c = Some q -> _load_cache w = (Raise e, w1) ->
  geocode_address net a c skip fb w = (Raise e, w1).
Proof.
  intros Hq Hload. unfold geocode_address. rewrite Hq.
  unfold bind at 1. rewrite Hload. reflexivity.
Qed.

Lemma geocode_address_resolved (a c : option string) (skip fb : bool)
    (w w1 : World) (q : string) (cache : gmap string entry) (lat lng : jval) :
  build_query a c = Some q -> _load_cache w = (Ok cache, w1) ->
  cache !! correct_query q = Some (Resolved lat lng) ->
  geocode_address net a c skip fb w
  = (if truthy lat && truthy lng then return_floats lat lng
     else ret (None, None)) w1.
Proof.
  intros Hq Hload Hlk. unfold geocode_address. rewrite Hq.
  unfold bind at 1. rewrite Hload, Hlk. reflexivity.
Qed.

Lemma geocode_address_skip (a c : option string) (fb : bool)
    (w w1 : World) (q : string) (cache : gmap string entry) :
  build_query a c = Some q -> _load_cache w = (Ok cache, w1) ->
  cache !! correct_query q = Some Negative \/ cache !! correct_query q = None ->
  geocode_address net a c true fb w = (Ok (None, None), w1).
Proof.
  intros Hq Hload Hlk. unfold geocode_address. rewrite Hq.
  unfold bind at 1. rewrite Hload. destruct Hlk as [-> | ->]; reflexivity.
Qed.

Lemma geocode_address_absent (a c : option string) (fb : bool)
    (w w1 : World) (q : string) (cache : gmap string entry) :
  build_query a c = Some q -> _load_cache w = (Ok cache, w1) ->
  cache !! correct_query q = None ->
  geocode_address net a c false fb w
  = (do found <- _fetch_nominatim net (correct_query q) (upper (or_empty c));
     let '(lat, lng) := found in
     if truthy lat && truthy lng then
       do cache <- _load_cache;
       _save_cache (<[correct_query q := Resolved lat lng]> cache) ;;
       return_floats lat lng
     else
       do hit <- (if fb then
                    for_fallbacks net (upper (or_empty c))
                      (fun lat lng =>
                         do cache <- _load_cache;
                         _save_cache (<[correct_query q := Resolved lat lng]> cache) ;;
                         return_floats lat lng)
                      (_fallback_queries (correct_query q))
                  else ret None);
       match hit with
       | Some r => ret r
       | None =>
           do cache <- _load_cache;
           _save_cache (<[correct_query q := Negative]> cache) ;;
           ret (None, None)
       end) w1.
Proof.
  intros Hq Hload Hlk. unfold geocode_address. rewrite Hq.
  unfold bind at 1. rewrite Hload, Hlk. reflexivity.
Qed.

Lemma geocode_address_absent_fetch (a c : option string) (fb : bool)
    (w w1 : World) (q : string) (cache : gmap string entry) :
  build_query a c = Some q -> _load_cache w = (Ok cache, w1) ->
  cache !! correct_query q = None ->
  geocode_address net a c false fb w
  = bind (_fetch_nominatim net (correct_query q) (upper (or_empty c)))
         (after_first_fetch net (correct_query q) (upper (or_empty c)) fb) w1.
Proof.
  intros Hq Hload Hlk. unfold geocode_address. rewrite Hq.
  unfold bind at 1. rewrite Hload, Hlk. reflexivity.
Qed.

Lemma geocode_address_negative (a c : option string) (fb : bool)
    (w w1 : World) (q : string) (cache : gmap string entry) :
  build_query a c = Some q -> _load_cache w = (Ok cache, w1) ->
  cache !! correct_query q = Some Negative ->
  geocode_address net a c false fb w
  = (if fb then
       do hit <- for_fallbacks net (upper (or_empty c))
                   (fun lat lng =>
                      _save_cache (<[correct_query q := Resolved lat lng]> cache) ;;
                      return_floats lat lng)
                   (_fallback_queries (correct_query q));
       match hit with
       | Some r => ret r
       | None => ret (None, None)
       end
     else ret (None, None)) w1.
Proof.
  intros Hq Hload Hlk. unfold geocode_address. rewrite Hq.
  unfold bind at 1. rewrite Hload, Hlk. reflexivity.
Qed.

(** [return float(lat), float(lng)] leaves the world alone and does not
    depend on it. *)
Lemma return_floats_world (lat lng : jval) (w : World) :
  (return_floats lat lng w).2 = w.
Proof.
  unfold return_floats, bind, lift, ret.
  destruct (to_float lat); [| reflexivity]. destruct (to_float lng); reflexivity.
Qed.

Lemma return_floats_value (lat lng : jval) (w w' : World) :
  (return_floats lat lng w).1 = (return_floats lat lng w').1.
Proof.
  unfold return_floats, bind, lift, ret.
  destruct (to_float lat); [| reflexivity]. destruct (to_float lng); reflexivity.
Qed.

Lemma return_floats_ok (lat lng : jval) (x y : num) (w : World) :
  to_float lat = Ok x -> to_float lng = Ok y ->
  return_floats lat lng w = (Ok (Some x, Some y), w).
Proof.
  intros Hx Hy. unfold return_floats, bind, lift, ret. rewrite Hx, Hy.
  reflexivity.
Qed.

(** Storing a hit under [key]: load, insert, save, convert. *)
Lemma store_hit_settled (key : string) (lat lng : jval) (w : World)
    (cache : gmap string entry) :
  settled w cache ->
  (do cache <- _load_cache;
   _save_cache (<[key := Resolved lat lng]> cache) ;;
   return_floats lat lng) w
  = ((return_floats lat lng w).1,
     set_cache_file (Json (<[key := Resolved lat lng]> cache)) w).
Proof.
  intros Hs. unfold bind at 1. rewrite (settled_load _ _ Hs).
  unfold bind, _save_cache.
  pose proof (return_floats_world lat lng
                (set_cache_file (Json (<[key := Resolved lat lng]> cache)) w)) as Hw.
  pose proof (return_floats_value lat lng
                (set_cache_file (Json (<[key := Resolved lat lng]> cache)) w) w) as Hv.
  destruct (return_floats lat lng (set_cache_file _ w)) as [r w'].
  cbn [fst snd] in Hw, Hv. subst w'. rewrite <- Hv. reflexivity.
Qed.

(** C10: a cached [Resolved] entry whose [lat] or [lng] is falsy makes
    [geocode_address] return [(None, None)]: no GET is issued, whatever the
    flags, and the entry stays as it was. *)
Theorem cached_falsy_coordinate_returns_none (a c : option string)
    (skip fb : bool) (w : World) (q : string) (stored : gmap string entry)
    (lat lng : jval) :
  build_query a c = Some q ->
  cache_file w = Json stored ->
  stored !! correct_query q = Some (Resolved lat lng) ->
  truthy lat && truthy lng = false ->
  (geocode_address net a c skip fb w).1 = Ok (None, None) /\
  requests (geocode_address net a c skip fb w).2 = requests w /\
  cache_lookup (geocode_address net a c skip fb w).2 (correct_query q)
  = Some (Resolved lat lng).
Proof.
  intros Hq Hf Hlk Hfalsy.
  pose proof (load_cache_json w stored Hf) as Hload.
  assert (Hlk' : (purge_keys stored).1 !! correct_query q = Some (Resolved lat lng)).
  { rewrite purge_keys_other by apply correct_query_not_purged. exact Hlk. }
  rewrite (geocode_address_resolved a c skip fb w _ q _ lat lng Hq Hload Hlk').
  rewrite Hfalsy. cbn [ret fst snd].
  pose proof (load_cache_ok w _ _ Hload) as (_ & Hfile & _ & _ & _ & Htr).
  split; [reflexivity |]. split.
  - unfold requests. rewrite Htr. reflexivity.
  - rewrite Hfile. exact Hlk'.
Qed.

(** The first fetch of an absent query that the provider finds: the entry
    is stored and the converted pair returned. *)
Lemma geocode_address_absent_found (a c : option string) (fb : bool)
    (w w1 : World) (q : string) (cache : gmap string entry)
    (lat lng : jval) (rest : list (jval * jval)) :
  build_query a c = Some q -> _load_cache w = (Ok cache, w1) ->
  cache !! correct_query q = None ->
  (forall n, respond net n (correct_query q)
               (countrycodes_of (upper (or_empty c)))
             = Places ((lat, lng) :: rest)) ->
  truthy lat && truthy lng = true ->
  exists t w2,
    geocode_address net a c false fb w
    = ((return_floats lat lng w2).1,
       set_cache_file (Json (<[correct_query q := Resolved lat lng]> cache)) w2)
    /\ same_files w1 w2
    /\ requests w2 = requests w1 ++ [(t, correct_query q)].
Proof.
  intros Hq Hload Hlk Hfound Htruthy.
  rewrite (geocode_address_absent a c fb w w1 q cache Hq Hload Hlk).
  destruct (fetch_spec (correct_query q) (upper (or_empty c)) w1)
    as (n & t & w2 & Hfetch & Hfiles & Hreq).
  rewrite Hfound in Hfetch. cbn [answer] in Hfetch. rewrite Htruthy in Hfetch.
  exists t, w2. split; [| split; assumption].
  unfold bind at 1. rewrite Hfetch. rewrite Htruthy.
  apply store_hit_settled.
  apply (settled_same_files w1 w2 cache Hfiles).
  apply (load_cache_settles w w1 cache Hload).
Qed.

(** C4: with [skip_api] set and the query absent from the loaded cache,
    [geocode_address] returns [(None, None)], issues no GET and leaves the
    query absent from the cache file; if the provider finds the query, the
    next call without [skip_api] issues one GET, stores a [Resolved] entry
    under the query and returns the converted coordinate. *)
Theorem skipped_miss_stays_retryable (a c : option string) (fb : bool)
    (w w1 : World) (q : string) (cache : gmap string entry) :
  build_query a c = Some q -> _load_cache w = (Ok cache, w1) ->
  cache !! correct_query q = None ->
  geocode_address net a c true fb w = (Ok (None, None), w1) /\
  requests w1 = requests w /\
  cache_lookup w1 (correct_query q) = None /\
  forall (lat lng : jval) (rest : list (jval * jval)),
    (forall n, respond net n (correct_query q)
                 (countrycodes_of (upper (or_empty c)))
               = Places ((lat, lng) :: rest)) ->
    truthy lat && truthy lng = true ->
    let later := geocode_address net a c false fb w1 in
    cache_lookup later.2 (correct_query q) = Some (Resolved lat lng) /\
    length (requests later.2) = S (length (requests w1)) /\
    forall x y, to_float lat = Ok x -> to_float lng = Ok y ->
                later.1 = Ok (Some x, Some y).
Proof.
  intros Hq Hload Hlk.
  pose proof (load_cache_ok w w1 cache Hload) as (_ & Hfile & Hnext & _ & _ & Htr).
  split; [| split; [| split]].
  - apply (geocode_address_skip a c fb w w1 q cache Hq Hload). right. exact Hlk.
  - unfold requests. rewrite Htr. reflexivity.
  - rewrite Hfile. exact Hlk.
  - intros lat lng rest Hfound Htruthy later.
    destruct (geocode_address_absent_found a c fb w1 w1 q cache lat lng rest
                Hq Hnext Hlk Hfound Htruthy) as (t & w2 & Hrun & _ & Hreq).
    unfold later. rewrite Hrun. cbn [fst snd]. split; [| split].
    + unfold cache_lookup. cbn [set_cache_file cache_file].
      apply lookup_insert_eq.
    + change (requests (set_cache_file _ w2)) with (requests w2).
      rewrite Hreq, length_app. cbn [length]. lia.
    + intros x y Hx Hy. rewrite (return_floats_ok lat lng x y w2 Hx Hy).
      reflexivity.
Qed.

End Resolver.

Lemma cached_falsy_coordinate_returns_none_witness :
  (@geocode_address decimal_float silent_net (Some "Quito") (Some "EC")
     false true equator_world).1 = Ok (None, None) /\
  requests (@geocode_address decimal_float silent_net (Some "Quito") (Some "EC")
              false true equator_world).2 = requests equator_world /\
  cache_lookup (@geocode_address decimal_float silent_net (Some "Quito")
                  (Some "EC") false true equator_world).2
               (correct_query "Quito, EC")
  = Some (Resolved zero_lat quito_lng).
Proof.
  apply (@cached_falsy_coordinate_returns_none decimal_float silent_net
           (Some "Quito") (Some "EC") false true equator_world "Quito, EC"
           equator_cache zero_lat quito_lng).
  - reflexivity.
  - reflexivity.
  - reflexivity.
  - reflexivity.
Defined.

Lemma skipped_miss_stays_retryable_witness :
  @geocode_address decimal_float
    (net_finding "Split, Croatia" "43.5081" "16.4402")
    (Some "Split") (Some "HR") true true fresh_world
  = (Ok (None, None), fresh_world)
  /\ requests fresh_world = requests fresh_world
  /\ cache_lookup fresh_world (correct_query "Split, Croatia") = None.
Proof.
  destruct (@skipped_miss_stays_retryable decimal_float
              (net_finding "Split, Croatia" "43.5081" "16.4402")
              (Some "Split") (Some "HR") true fresh_world fresh_world
              "Split, Croatia" ∅)
    as (Hskip & Hreq & Hcache & _).
  - reflexivity.
  - reflexivity.
  - apply lookup_empty.
  - split; [exact Hskip | split; [exact Hreq | exact Hcache]].
Defined.

(** C2, as stated, fails: the fallback list of the two-part query
    "Neki Teren, Croatia" is empty, so "Teren, Croatia" is never tried. *)
Lemma neki_teren_not_resolved : ~ teren_scenario "Neki Teren".
Proof.
  unfold teren_scenario. intros [Hrun _].
  vm_compute in Hrun. discriminate Hrun.
Qed.

Example neki_teren_no_fallbacks :
  build_query (Some "Neki Teren") (Some "HR") = Some "Neki Teren, Croatia" /\
  _fallback_queries "Neki Teren, Croatia" = [].
Proof. split; reflexivity. Qed.

(** C2 (amended): with the cache holding [Negative] for
    "Neki, Teren, Croatia", resolving address "Neki, Teren" in "HR" with
    fallbacks against a provider that finds only "Teren, Croatia" returns
    that coordinate and overwrites the entry under the original key
    "Neki, Teren, Croatia" with [Resolved]. *)
Theorem neki_comma_teren_resolved : teren_scenario "Neki, Teren".
Proof. unfold teren_scenario. split; vm_compute; reflexivity. Qed.

(** ** Relations kept by the resolver *)

Section Stable.

Context `{PyFloat}.
Variable net : Network.
Variable event_location_fallbacks : string -> string -> list string.
Variable R : World -> World -> Prop.
Hypothesis R_refl : forall w, R w w.
Hypothesis R_trans : forall a b c, R a b -> R b c -> R a c.
Hypothesis R_load : stable R _load_cache.
Hypothesis R_save : forall cache, stable R (_save_cache cache).
Hypothesis R_fetch : forall q cc, stable R (_fetch_nominatim net q cc).

Lemma stable_ret {A} (a : A) : stable R (ret a).
Proof. intros w. apply R_refl. Qed.

Lemma stable_lift {A} (r : result A) : stable R (lift r).
Proof. intros w. apply R_refl. Qed.

Lemma stable_bind {A B} (m : M A) (k : A -> M B) :
  stable R m -> (forall a, stable R (k a)) -> stable R (bind m k).
Proof.
  intros Hm Hk w. unfold bind. specialize (Hm w).
  destruct (m w) as [[a | e] w1]; cbn [snd] in *.
  - apply (R_trans _ _ _ Hm). apply Hk.
  - exact Hm.
Qed.

Ltac stable_step :=
  match goal with
  | |- stable _ (ret _) => apply stable_ret
  | |- stable _ (lift _) => apply stable_lift
  | |- stable _ _load_cache => apply R_load
  | |- stable _ (_save_cache _) => apply R_save
  | |- stable _ (_fetch_nominatim _ _ _) => apply R_fetch
  | |- stable _ (bind _ _) => apply stable_bind; [| intros ?]
  | |- stable _ (match ?x with _ => _ end) => destruct x
  end.

Lemma stable_return_floats (lat lng : jval) : stable R (return_floats lat lng).
Proof. unfold return_floats. repeat stable_step. Qed.

Lemma stable_for_fallbacks {A} (cc : string) (on_hit : jval -> jval -> M A)
    (candidates : list string) :
  (forall lat lng, stable R (on_hit lat lng)) ->
  stable R (for_fallbacks net cc on_hit candidates).
Proof.
  intros Hhit. induction candidates as [| f rest IH]; cbn [for_fallbacks].
  - apply stable_ret.
  - apply stable_bind; [apply R_fetch |]. intros [lat lng].
    destruct (truthy lat && truthy lng); [| exact IH].
    apply stable_bind; [apply Hhit | intros r; apply stable_ret].
Qed.



Lemma stable_geocode_address (a c : option string) (skip fb : bool) :
  stable R (geocode_address net a c skip fb).
Proof.
  unfold geocode_address. destruct (build_query a c) as [q |]; [| apply stable_ret].
  apply stable_bind; [apply R_load |]. intros cache.
  destruct (cache !! correct_query q) as [[| lat lng] |].
  - destruct skip; [apply stable_ret |]. destruct fb; [| apply stable_ret].
    apply stable_bind.
    + apply stable_for_fallbacks. intros lat lng.
      apply stable_bind; [apply R_save | intros _; apply stable_return_floats].
    + intros [r |]; apply stable_ret.
  - destruct (truthy lat && truthy lng);
      [apply stable_return_floats | apply stable_ret].
  - destruct skip; [apply stable_ret |].
    apply stable_bind; [apply R_fetch |]. intros [lat lng].
    destruct (truthy lat && truthy lng).
    + apply stable_bind; [apply R_load | intros cache'].
      apply stable_bind; [apply R_save | intros _; apply stable_return_floats].
    + apply stable_bind.
      * destruct fb; [| apply stable_ret].
        apply stable_for_fallbacks. intros lat' lng'.
        apply stable_bind; [apply R_load | intros cache'].
        apply stable_bind; [apply R_save | intros _; apply stable_return_floats].
      * intros [r |]; [apply stable_ret |].
        apply stable_bind; [apply R_load | intros cache'].
        apply stable_bind; [apply R_save | intros _; apply stable_ret].
Qed.

Lemma stable_for_event_fallbacks (orig_key : option string) (cc : string)
    (candidates : list string) :
  stable R (for_event_fallbacks net orig_key cc candidates).
Proof.
  induction candidates as [| f rest IH]; cbn [for_event_fallbacks].
  - apply stable_ret.
  - destruct (_ || _); [exact IH |].
    apply stable_bind; [apply stable_geocode_address |]. intros r.
    destruct (both_present r); [| exact IH].
    destruct r as [[x |] [y |]]; destruct orig_key as [key |];
      try apply stable_ret.
    apply stable_bind; [apply R_load | intros cache].
    apply stable_bind; [apply R_save | intros _; apply stable_ret].
Qed.

Lemma stable_geocode_event_location (location : option string) (cc : string)
    (skip : bool) :
  stable R (geocode_event_location net event_location_fallbacks location cc skip).
Proof.
  unfold geocode_event_location.
  destruct (String.eqb _ ""); [apply stable_ret |].
  apply stable_bind; [apply stable_geocode_address |]. intros r.
  destruct (both_present r); [apply stable_ret |].
  destruct skip; [apply stable_ret |].
  apply stable_bind; [apply stable_for_event_fallbacks |].
  intros [r' |]; apply stable_ret.
Qed.

Lemma stable_run_op (o : op) :
  stable R (run_op net event_location_fallbacks o).
Proof.
  destruct o; [apply stable_geocode_address | apply stable_geocode_event_location].
Qed.

Lemma stable_run_ops (os : list op) (w : World) :
  R w (run_ops net event_location_fallbacks os w).
Proof.
  revert w. induction os as [| o os IH]; intros w; cbn [run_ops foldl].
  - apply R_refl.
  - apply (R_trans _ _ _ (stable_run_op o w)). apply IH.
Qed.

End Stable.

(** ** Rate limiting *)

Section RateLimit.

Context `{PyFloat}.
Variable net : Network.
Hypothesis net_punctual : punctual net.




(** *** Spaced lists of times *)




Lemma times_rate_nonneg (n : nat) : (0 <= times_rate n)%Q.
Proof.
  induction n as [| n IH]; cbn [times_rate]; [lra |].
  unfold RATE_LIMIT_SEC in *. lra.
Qed.




(** *** Every primitive keeps the pace *)





Lemma load_same_timing (w : World) : same_timing w (_load_cache w).2.
Proof.
  assert (Hp : forall stored w0, same_timing w0 (after_purge stored w0)).
  { intros stored w0.
    destruct (after_purge_frame w0 stored) as (Hc & Hl & Ht & _).
    repeat split; assumption. }
  destruct (cache_file w) as [| | stored | |] eqn:Hf.
  - rewrite (load_cache_missing w Hf).
    destruct (legacy_file w) as [| | stored | |]; cbn [snd];
      try (repeat split; reflexivity).
    apply (Hp stored (set_cache_file (Json stored) w)).
  - rewrite (load_cache_not_json w Hf). repeat split; reflexivity.
  - rewrite (load_cache_json w stored Hf). apply Hp.
  - rewrite (load_cache_undecodable w Hf). repeat split; reflexivity.
  - rewrite (load_cache_scalar w Hf). repeat split; reflexivity.
Qed.





(** *** Calls *)

Variable event_location_fallbacks : string -> string -> list string.






End RateLimit.

(** ** Two calls in a row *)

Section Idempotence.

Context `{PyFloat}.
Variable net : Network.

Lemma same_files_refl (w : World) : same_files w w.
Proof. split; reflexivity. Qed.

Lemma same_files_trans (a b c : World) :
  same_files a b -> same_files b c -> same_files a c.
Proof. intros [H1 H2] [H3 H4]. split; congruence. Qed.

(** One turn of the fallback loop. *)
Lemma for_fallbacks_step {A} (cc : string) (on_hit : jval -> jval -> M A)
    (f : string) (rest : list string) (w : World) :
  exists n t w1,
    same_files w w1 /\ requests w1 = requests w ++ [(t, f)] /\
    for_fallbacks net cc on_hit (f :: rest) w
    = match answer (respond net n f (countrycodes_of cc)) with
      | Ok (lat, lng) =>
          if truthy lat && truthy lng
          then bind (on_hit lat lng) (fun r => ret (Some r)) w1
          else for_fallbacks net cc on_hit rest w1
      | Raise e => (Raise e, w1)
      end.
Proof.
  destruct (fetch_spec net f cc w) as (n & t & w1 & Hfetch & Hfiles & Hreq).
  exists n, t, w1. split; [exact Hfiles |]. split; [exact Hreq |].
  cbn [for_fallbacks]. unfold bind at 1. rewrite Hfetch.
  destruct (answer (respond net n f (countrycodes_of cc))) as [[lat lng] | e];
    [destruct (truthy lat && truthy lng) |]; reflexivity.
Qed.

(** The three ways the fallback loop ends: no candidate was found, a
    candidate was found and [on_hit] ran, or a GET raised.  Until then only
    GETs happened, so the files are as at the start. *)
Lemma for_fallbacks_cases {A} (cc : string) (on_hit : jval -> jval -> M A)
    (candidates : list string) (w : World) :
  (exists w', for_fallbacks net cc on_hit candidates w = (Ok None, w') /\
              same_files w w')
  \/ (exists wf lat lng,
        same_files w wf /\ truthy lat && truthy lng = true /\
        for_fallbacks net cc on_hit candidates w
        = bind (on_hit lat lng) (fun r => ret (Some r)) wf)
  \/ (exists e w', for_fallbacks net cc on_hit candidates w = (Raise e, w') /\
                   same_files w w').
Proof.
  revert w. induction candidates as [| f rest IH]; intros w.
  - left. exists w. split; [reflexivity | apply same_files_refl].
  - destruct (for_fallbacks_step cc on_hit f rest w)
      as (n & t & w1 & Hfiles & _ & ->).
    destruct (answer (respond net n f (countrycodes_of cc))) as [[lat lng] | e].
    + destruct (truthy lat && truthy lng) eqn:Ht.
      * right. left. exists w1, lat, lng.
        split; [exact Hfiles | split; [exact Ht | reflexivity]].
      * destruct (IH w1) as [(w' & Hrun & Hf) | [(wf & la & ln & Hf & Htr & Hrun)
                                                | (e & w' & Hrun & Hf)]].
        -- left. exists w'. split; [exact Hrun |].
           apply (same_files_trans _ w1); assumption.
        -- right. left. exists wf, la, ln. split; [| split; assumption].
           apply (same_files_trans _ w1); assumption.
        -- right. right. exists e, w'. split; [exact Hrun |].
           apply (same_files_trans _ w1); assumption.
    + right. right. exists e, w1. split; [reflexivity | exact Hfiles].
Qed.

(** A loop that ends in a hit never returns [Ok None]. *)
Lemma hit_not_none {A} (m : M A) (wf w' : World) :
  bind m (fun r => ret (Some r)) wf <> (Ok None, w').
Proof.
  unfold bind, ret. destruct (m wf) as [[a | e] w1]; intros E; discriminate E.
Qed.

Section Stationary.

Hypothesis net_stationary : stationary net.

(** With a stationary provider, a loop that found nothing finds nothing
    again, from any world and whatever it would do on a hit; it issues one
    GET per candidate. *)
Lemma for_fallbacks_replay {A B} (cc : string) (on_hit : jval -> jval -> M A)
    (on_hit' : jval -> jval -> M B) (candidates : list string) (w w' v : World) :
  for_fallbacks net cc on_hit candidates w = (Ok None, w') ->
  exists v' new,
    for_fallbacks net cc on_hit' candidates v = (Ok None, v') /\
    same_files v v' /\
    requests v' = requests v ++ new /\ List.map snd new = candidates.
Proof.
  revert w v. induction candidates as [| f rest IH]; intros w v Hrun.
  - exists v, []. split; [reflexivity |]. split; [apply same_files_refl |].
    split; [symmetry; apply app_nil_r | reflexivity].
  - destruct (for_fallbacks_step cc on_hit f rest w)
      as (n & t & w1 & _ & _ & Hstep).
    destruct (for_fallbacks_step cc on_hit' f rest v)
      as (m & u & v1 & Hfiles' & Hreq' & Hstep').
    rewrite (net_stationary m n) in Hstep'.
    rewrite Hstep in Hrun. rewrite Hstep'.
    destruct (answer (respond net n f (countrycodes_of cc))) as [[lat lng] | e];
      [| discriminate Hrun].
    destruct (truthy lat && truthy lng).
    + exfalso. exact (hit_not_none _ _ _ Hrun).
    + destruct (IH w1 v1 Hrun) as (v' & new & Hrun' & Hf & Hr & Hq).
      exists v', ((u, f) :: new). split; [exact Hrun' |].
      split; [apply (same_files_trans _ v1); assumption |]. split.
      * rewrite Hr, Hreq'. rewrite <- List.app_assoc. reflexivity.
      * cbn [List.map snd]. rewrite Hq. reflexivity.
Qed.

Lemma pair_inv {A B} (x x' : A) (y y' : B) :
  (x, y) = (x', y') -> x = x' /\ y = y'.
Proof. intros E. injection E as -> ->. split; reflexivity. Qed.

Lemma bind_eq {A B} (m : M A) (k : A -> M B) (w wm : World) (res : result A) :
  m w = (res, wm) ->
  bind m k w = match res with
               | Ok x => k x wm
               | Raise e => (Raise e, wm)
               end.
Proof. intros Hm. unfold bind. rewrite Hm. destruct res; reflexivity. Qed.

Lemma save_then_return (m : gmap string entry) (lat lng : jval) (w : World) :
  (_save_cache m ;; return_floats lat lng) w
  = ((return_floats lat lng w).1, set_cache_file (Json m) w).
Proof.
  unfold bind, _save_cache.
  pose proof (return_floats_world lat lng (set_cache_file (Json m) w)) as Hw.
  pose proof (return_floats_value lat lng (set_cache_file (Json m) w) w) as Hv.
  destruct (return_floats lat lng (set_cache_file (Json m) w)) as [r w'].
  cbn [fst snd] in Hw, Hv. subst w'. rewrite <- Hv. reflexivity.
Qed.

Lemma return_floats_at (lat lng : jval) (r : option num * option num)
    (w w' : World) :
  (return_floats lat lng w).1 = Ok r -> return_floats lat lng w' = (Ok r, w').
Proof.
  intros Hr. rewrite (return_floats_value lat lng w w') in Hr.
  pose proof (return_floats_world lat lng w') as Hw.
  destruct (return_floats lat lng w') as [r' v]. cbn [fst snd] in *.
  subst. reflexivity.
Qed.

(** The query is never one of its own fallback candidates. *)
Lemma fallback_queries_not_self (cache_key : string) :
  cache_key ∉ _fallback_queries cache_key.
Proof.
  unfold _fallback_queries. intros Hin.
  destruct (String.eqb cache_key "" || negb (contains ", " cache_key));
    [inversion Hin |].
  cbv zeta in Hin.
  destruct (Nat.ltb _ 2); [inversion Hin |].
  apply list_elem_of_In, List.filter_In in Hin as [_ Hkeep].
  apply andb_true_iff in Hkeep as [_ Hne].
  rewrite String.eqb_refl in Hne. discriminate Hne.
Qed.

(** The second call when the first left a [Resolved] entry. *)
Lemma second_call_cached (a c : option string) (fb : bool) (q : string)
    (r : option num * option num) (w1 : World) (c1 : gmap string entry)
    (lat lng : jval) :
  build_query a c = Some q -> settled w1 c1 ->
  c1 !! correct_query q = Some (Resolved lat lng) ->
  (if truthy lat && truthy lng then return_floats lat lng
   else ret (None, None)) w1 = (Ok r, w1) ->
  second_call_agrees net a c fb q r w1.
Proof.
  intros Hq Hs Hlk Hval. exists w1, [].
  rewrite (geocode_address_resolved net a c false fb w1 w1 q c1 lat lng Hq
             (settled_load w1 c1 Hs) Hlk).
  rewrite (settled_lookup w1 c1 _ Hs), Hlk.
  split; [exact Hval |]. split; [reflexivity |].
  split; [symmetry; apply app_nil_r |]. split; [eauto |].
  split; [reflexivity | apply fallback_queries_not_self].
Qed.

(** The second call after a hit was stored. *)
Lemma second_call_after_hit (a c : option string) (fb : bool) (q : string)
    (r : option num * option num) (wf : World) (cache : gmap string entry)
    (lat lng : jval) :
  build_query a c = Some q -> settled wf cache ->
  truthy lat && truthy lng = true ->
  (return_floats lat lng wf).1 = Ok r ->
  second_call_agrees net a c fb q r
    (set_cache_file (Json (<[correct_query q := Resolved lat lng]> cache)) wf).
Proof.
  intros Hq [Hfree _] Ht Hr.
  apply (second_call_cached a c fb q r _
           (<[correct_query q := Resolved lat lng]> cache) lat lng Hq).
  - apply settled_save. apply purge_free_insert; [| exact Hfree].
    apply correct_query_not_purged.
  - apply lookup_insert_eq.
  - rewrite Ht. apply (return_floats_at lat lng r wf). exact Hr.
Qed.

(** The second call when the first left a [Negative] entry and, with
    fallbacks, its loop found nothing. *)
Lemma second_call_negative {A} (a c : option string) (fb : bool) (q : string)
    (w1 : World) (c1 : gmap string entry)
    (on_hit : jval -> jval -> M A) (wx wy : World) :
  build_query a c = Some q -> settled w1 c1 ->
  c1 !! correct_query q = Some Negative ->
  (fb = true ->
   for_fallbacks net (upper (or_empty c)) on_hit
     (_fallback_queries (correct_query q)) wx = (Ok None, wy)) ->
  second_call_agrees net a c fb q (None, None) w1.
Proof.
  intros Hq Hs Hlk Hmiss. unfold second_call_agrees.
  rewrite (geocode_address_negative net a c fb w1 w1 q c1 Hq
             (settled_load w1 c1 Hs) Hlk).
  rewrite (settled_lookup w1 c1 _ Hs), Hlk.
  destruct fb; cbv iota.
  - match goal with
    | |- context [for_fallbacks net ?cc ?h ?cands] =>
        destruct (for_fallbacks_replay cc on_hit h cands wx wy w1
                    (Hmiss eq_refl)) as (v' & new & Hrun & _ & Hreq & Hqs)
    end.
    exists v', new. rewrite (bind_eq _ _ _ _ _ Hrun).
    split; [reflexivity |]. split; [discriminate |].
    split; [exact Hreq |]. split; [eauto |].
    split; [exact Hqs | apply fallback_queries_not_self].
  - exists w1, []. split; [reflexivity |]. split; [reflexivity |].
    split; [symmetry; apply app_nil_r |]. split; [eauto |].
    split; [reflexivity | apply fallback_queries_not_self].
Qed.

(** After the first fetch of an absent query. *)
Lemma second_call_after_first_fetch (a c : option string) (fb : bool)
    (q : string) (r : option num * option num) (w0 w1 : World)
    (cache : gmap string entry) (found : jval * jval) :
  build_query a c = Some q -> settled w0 cache ->
  cache !! correct_query q = None ->
  after_first_fetch net (correct_query q) (upper (or_empty c)) fb found w0
  = (Ok r, w1) ->
  second_call_agrees net a c fb q r w1.
Proof.
  intros Hq Hs Hlk Hrun. unfold after_first_fetch in Hrun.
  destruct found as [lat lng].
  assert (Hstore : forall la ln wf, same_files w0 wf ->
            store_and_return (correct_query q) la ln wf
            = ((return_floats la ln wf).1,
               set_cache_file
                 (Json (<[correct_query q := Resolved la ln]> cache)) wf)).
  { intros la ln wf Hf. apply store_hit_settled.
    apply (settled_same_files w0 wf cache Hf Hs). }
  assert (Hneg : forall w', same_files w0 w' ->
            (do cache' <- _load_cache;
             _save_cache (<[correct_query q := Negative]> cache') ;;
             ret ((None, None) : option num * option num)) w'
            = (Ok (None, None),
               set_cache_file
                 (Json (<[correct_query q := Negative]> cache)) w')).
  { intros w' Hf.
    rewrite (bind_eq _ _ _ _ _
               (settled_load w' cache (settled_same_files w0 w' cache Hf Hs))).
    reflexivity. }
  assert (Hafter_neg : forall {A} (on_hit : jval -> jval -> M A) w' wx wy,
            (fb = true ->
             for_fallbacks net (upper (or_empty c)) on_hit
               (_fallback_queries (correct_query q)) wx = (Ok None, wy)) ->
            second_call_agrees net a c fb q (None, None)
              (set_cache_file
                 (Json (<[correct_query q := Negative]> cache)) w')).
  { intros A on_hit w' wx wy Hmiss.
    apply (second_call_negative a c fb q _
             (<[correct_query q := Negative]> cache) on_hit wx wy Hq).
    - apply settled_save. apply purge_free_insert; [| apply Hs].
      apply correct_query_not_purged.
    - apply lookup_insert_eq.
    - exact Hmiss. }
  destruct (truthy lat && truthy lng) eqn:Ht.
  - rewrite (Hstore lat lng w0 (same_files_refl w0)) in Hrun.
    apply pair_inv in Hrun as [Hr <-].
    apply (second_call_after_hit a c fb q r w0 cache lat lng Hq Hs Ht Hr).
  - destruct fb; cbv iota in Hrun.
    + match type of Hrun with
      | context [for_fallbacks net ?cc ?h ?cands] =>
          destruct (for_fallbacks_cases cc h cands w0)
            as [(w' & Hloop & Hf) | [(wf & la & ln & Hf & Htr & Hloop)
                                    | (e & w' & Hloop & _)]]
      end.
      * rewrite (bind_eq _ _ _ _ _ Hloop) in Hrun. cbv beta iota in Hrun.
        rewrite (Hneg w' Hf) in Hrun.
        apply ok_pair_inv in Hrun as [<- <-].
        exact (Hafter_neg _ _ w' w0 w' (fun _ => Hloop)).
      * rewrite (bind_eq _ _ _ _ _ (Hstore la ln wf Hf)) in Hloop.
        destruct (return_floats la ln wf).1 as [r0 | e0] eqn:Hr0;
          cbv beta iota in Hloop; unfold ret in Hloop;
          rewrite (bind_eq _ _ _ _ _ Hloop) in Hrun;
          cbv beta iota in Hrun; unfold ret in Hrun.
        -- apply ok_pair_inv in Hrun as [<- <-].
           apply (second_call_after_hit a c true q r0 wf cache la ln Hq
                    (settled_same_files w0 wf cache Hf Hs) Htr Hr0).
        -- discriminate Hrun.
      * rewrite (bind_eq _ _ _ _ _ Hloop) in Hrun. discriminate Hrun.
    + rewrite (bind_eq (ret None) _ w0 w0 (Ok None) eq_refl) in Hrun.
      cbv beta iota in Hrun.
      rewrite (Hneg w0 (same_files_refl w0)) in Hrun.
      apply ok_pair_inv in Hrun as [<- <-].
      apply (Hafter_neg unit (fun _ _ => ret tt) w0 w0 w0). discriminate.
Qed.

(** C1 (amended): with a stationary provider, if the first call for a valid
    pair returns, the second call returns the same value; when that value is
    a coordinate the second call is answered from the cache and changes
    nothing (no GET); when it is none, the first call left an entry for the
    query and the second call issues no GET for the canonical query itself:
    its GETs are exactly the fallback candidates of the query, each once and
    in order, when the entry is [Negative] and fallbacks are enabled, and
    there are none when fallbacks are disabled or the entry is [Resolved]
    with a falsy coordinate. *)
Theorem second_call_repeats_first (a c : option string) (fb : bool)
    (w w1 : World) (q : string) (r : option num * option num) :
  build_query a c = Some q ->
  geocode_address net a c false fb w = (Ok r, w1) ->
  second_call_agrees net a c fb q r w1.
Proof.
  intros Hq Hfirst.
  destruct (_load_cache w) as [[cache | e] w0] eqn:Hload.
  2: { rewrite (geocode_address_load_raises net a c false fb w w0 q e Hq Hload)
         in Hfirst. discriminate Hfirst. }
  pose proof (load_cache_settles w w0 cache Hload) as Hs.
  destruct (cache !! correct_query q) as [[| lat lng] |] eqn:Hlk.
  - rewrite (geocode_address_negative net a c fb w w0 q cache Hq Hload Hlk)
      in Hfirst.
    destruct fb; cbv iota in Hfirst.
    + match type of Hfirst with
      | context [for_fallbacks net ?cc ?h ?cands] =>
          destruct (for_fallbacks_cases cc h cands w0)
            as [(w' & Hloop & Hf) | [(wf & la & ln & Hf & Htr & Hloop)
                                    | (e & w' & Hloop & _)]]
      end.
      * rewrite (bind_eq _ _ _ _ _ Hloop) in Hfirst.
        cbv beta iota in Hfirst. unfold ret in Hfirst.
        apply ok_pair_inv in Hfirst as [<- <-].
        exact (second_call_negative a c true q w' cache _ w0 w' Hq
                 (settled_same_files w0 w' cache Hf Hs) Hlk (fun _ => Hloop)).
      * rewrite (bind_eq _ _ _ _ _ (save_then_return _ la ln wf)) in Hloop.
        destruct (return_floats la ln wf).1 as [r0 | e0] eqn:Hr0;
          cbv beta iota in Hloop; unfold ret in Hloop;
          rewrite (bind_eq _ _ _ _ _ Hloop) in Hfirst;
          cbv beta iota in Hfirst; unfold ret in Hfirst.
        -- apply ok_pair_inv in Hfirst as [<- <-].
           apply (second_call_after_hit a c true q r0 wf cache la ln Hq
                    (settled_same_files w0 wf cache Hf Hs) Htr Hr0).
        -- discriminate Hfirst.
      * rewrite (bind_eq _ _ _ _ _ Hloop) in Hfirst. discriminate Hfirst.
    + unfold ret in Hfirst. apply ok_pair_inv in Hfirst as [<- <-].
      apply (second_call_negative a c false q w0 cache
               (fun _ _ => ret tt) w0 w0 Hq Hs Hlk).
      discriminate.
  - rewrite (geocode_address_resolved net a c false fb w w0 q cache lat lng
               Hq Hload Hlk) in Hfirst.
    assert (Hw : w1 = w0).
    { destruct (truthy lat && truthy lng).
      - pose proof (return_floats_world lat lng w0) as Hw.
        rewrite Hfirst in Hw. exact Hw.
      - unfold ret in Hfirst. apply ok_pair_inv in Hfirst as [_ <-].
        reflexivity. }
    subst w1.
    apply (second_call_cached a c fb q r w0 cache lat lng Hq Hs Hlk Hfirst).
  - rewrite (geocode_address_absent_fetch net a c fb w w0 q cache Hq Hload Hlk)
      in Hfirst.
    destruct (fetch_spec net (correct_query q) (upper (or_empty c)) w0)
      as (n & t & wa & Hfetch & Hf & _).
    rewrite (bind_eq _ _ _ _ _ Hfetch) in Hfirst.
    destruct (answer (respond net n (correct_query q)
                        (countrycodes_of (upper (or_empty c)))))
      as [found | e]; [| discriminate Hfirst].
    apply (second_call_after_first_fetch a c fb q r wa w1 cache found Hq
             (settled_same_files w0 wa cache Hf Hs) Hlk Hfirst).
Qed.

End Stationary.

End Idempotence.

(** C1, as stated, fails: after a first call that ended with a [Negative]
    entry, the second call walks the fallback candidates again and issues a
    GET for each. *)
Lemma second_call_fetches_fallbacks :
  ~ @resolve_idempotent decimal_float silent_net
      (Some "Ulica 5, Split") (Some "HR") true fresh_world.
Proof.
  intros [_ Hreq]. apply (f_equal (@length _)) in Hreq.
  vm_compute in Hreq. discriminate Hreq.
Qed.

Example second_call_request_counts :
  let first := @geocode_address decimal_float silent_net
                 (Some "Ulica 5, Split") (Some "HR") false true fresh_world in
  let second := @geocode_address decimal_float silent_net
                  (Some "Ulica 5, Split") (Some "HR") false true first.2 in
  List.map snd (requests first.2)
  = ["Ulica 5, Split, Croatia"; "Split, Croatia"; "Ulica, Split, Croatia"] /\
  List.map snd (requests second.2)
  = ["Ulica 5, Split, Croatia"; "Split, Croatia"; "Ulica, Split, Croatia";
     "Split, Croatia"; "Ulica, Split, Croatia"].
Proof. split; vm_compute; reflexivity. Qed.

Lemma second_call_repeats_first_witness :
  @second_call_agrees decimal_float silent_net
    (Some "Ulica 5, Split") (Some "HR") true "Ulica 5, Split, Croatia"
    (None, None)
    (@geocode_address decimal_float silent_net
       (Some "Ulica 5, Split") (Some "HR") false true fresh_world).2.
Proof.
  apply (@second_call_repeats_first decimal_float silent_net
           (fun n m q c => eq_refl)
           (Some "Ulica 5, Split") (Some "HR") true fresh_world).
  - reflexivity.
  - apply injective_projections; cbn [fst snd]; [| reflexivity].
    vm_compute. reflexivity.
Defined.


(** ** What the resolver writes *)

Section Writes.

Context `{PyFloat}.
Variable net : Network.

Lemma return_floats_both (lat lng : jval) (w : World)
    (r : option num * option num) :
  (return_floats lat lng w).1 = Ok r -> both_present r = true.
Proof.
  unfold return_floats, bind, lift, ret.
  destruct (to_float lat); [| discriminate].
  destruct (to_float lng); [| discriminate].
  cbn [fst]. intros E. injection E as <-. reflexivity.
Qed.



End Writes.

(** ** The cache only grows *)

Section AppendOnly.

Context `{PyFloat}.
Variable net : Network.
Variable event_location_fallbacks : string -> string -> list string.









Lemma table_get_absent (d : list (string * string)) (k dflt : string) :
  k ∉ List.map fst d -> table_get d k dflt = dflt.
Proof.
  induction d as [| [k' v] d IH]; cbn [table_get List.map fst]; intros Hk.
  - reflexivity.
  - apply not_elem_of_cons in Hk as [Hne Hk].
    destruct (String.eqb_spec k k') as [-> | _]; [contradiction |].
    apply IH. exact Hk.
Qed.

(** A query that is not a known-bad key is its own correction. *)
Lemma correct_query_fixed (q : string) :
  q ∉ KEYS_TO_PURGE_FROM_CACHE -> correct_query q = q.
Proof. intros Hq. unfold correct_query. apply table_get_absent. exact Hq. Qed.






Lemma bind_ret_world {A B} (m : M A) (k : A -> M B) (w : World) :
  (forall x wx, (k x wx).2 = wx) -> (bind m k w).2 = (m w).2.
Proof.
  intros Hk. unfold bind. destruct (m w) as [[x | e] w1]; cbn [snd];
    [apply Hk | reflexivity].
Qed.










End AppendOnly.


(** The same batch keeps the entry stored under the sound key. *)
Example load_keeps_sound_entry :
  cache_lookup
    (@run_ops decimal_float silent_net (fun _ _ => [])
       [Resolve (Some "Split") (Some "HR") true true] stale_world)
    "Split, Croatia"
  = Some split_coords.
Proof. reflexivity. Qed.

(** * Further properties of the cache store, the fetcher and the resolver *)

Section Store.

Context `{PyFloat}.

(** [_migrate_legacy_cache]: a migration that returns has nothing left to
    do (running it again changes nothing), never touches the legacy file,
    leaves the world alone when the cache file exists or the legacy file
    does not, and otherwise leaves a cache file behind. *)
Theorem migrate_legacy_cache_once (w w1 : World) :
  _migrate_legacy_cache w = (Ok tt, w1) ->
  _migrate_legacy_cache w1 = (Ok tt, w1) /\
  legacy_file w1 = legacy_file w /\
  (exists_file (cache_file w) = true -> w1 = w) /\
  (exists_file (legacy_file w) = false -> w1 = w) /\
  (exists_file (legacy_file w) = true -> exists_file (cache_file w1) = true).
Proof.
  unfold _migrate_legacy_cache.
  destruct (legacy_file w) as [| | data | |] eqn:Hl;
    destruct (cache_file w) as [| | stored | |] eqn:Hc;
    cbn [exists_file andb negb]; intros E;
    try discriminate E; apply pair_inv in E as [_ <-];
    cbn [set_cache_file cache_file legacy_file exists_file andb negb];
    rewrite ?Hl, ?Hc; cbn [exists_file andb negb];
    repeat split; intros; try reflexivity; try assumption; try discriminate.
Qed.

(** [_save_cache] then [_load_cache]: the load returns what was saved minus
    the known-bad keys, and that is what the cache file holds afterwards; a
    mapping without known-bad keys comes back unchanged. *)
Theorem save_then_load (m : gmap string entry) (w : World) :
  exists c,
    (_save_cache m ;; _load_cache) w = (Ok c, set_cache_file (Json c) w) /\
    (forall k, c !! k = if decide (k ∈ KEYS_TO_PURGE_FROM_CACHE)
                        then None else m !! k) /\
    (purge_free m -> c = m).
Proof.
  exists (purge_keys m).1. split; [| split].
  - unfold bind, _save_cache.
    rewrite (load_cache_json (set_cache_file (Json m) w) m eq_refl).
    unfold after_purge. destruct (purge_keys m).2 eqn:Hp; [reflexivity |].
    rewrite (purge_keys_clean m Hp). reflexivity.
  - apply purge_keys_lookup.
  - intros Hfree. rewrite (purge_keys_absent m Hfree). reflexivity.
Qed.



(** Corrections do not chain: for every query, the corrected query is its
    own correction, and it is not one of the known-bad keys. *)
Theorem correct_query_idempotent (query : string) :
  correct_query (correct_query query) = correct_query query /\
  correct_query query ∉ KEYS_TO_PURGE_FROM_CACHE.
Proof.
  split; [| apply correct_query_not_purged].
  apply correct_query_fixed. apply correct_query_not_purged.
Qed.

End Store.

Lemma migrate_legacy_cache_once_witness :
  legacy_file (set_cache_file (Json stale_cache)
                 (world_with Missing (Json stale_cache)))
  = Json stale_cache /\
  @_migrate_legacy_cache decimal_float
    (set_cache_file (Json stale_cache) (world_with Missing (Json stale_cache)))
  = (Ok tt, set_cache_file (Json stale_cache)
              (world_with Missing (Json stale_cache))).
Proof.
  destruct (@migrate_legacy_cache_once decimal_float
              (world_with Missing (Json stale_cache))
              (set_cache_file (Json stale_cache)
                 (world_with Missing (Json stale_cache))) eq_refl)
    as (Hagain & Hlegacy & _).
  split; [exact Hlegacy | exact Hagain].
Defined.

Section Calls.

Context `{PyFloat}.
Variable net : Network.
Variable event_location_fallbacks : string -> string -> list string.

(** [_fetch_nominatim]: a fetch that returns gives a pair of truthy values
    or the pair of nulls, never a half answer; whether it returns or raises,
    it leaves both files alone and logs exactly one GET. *)
Theorem fetch_nominatim_result (q cc : string) (w : World) :
  match (_fetch_nominatim net q cc w).1 with
  | Ok (lat, lng) =>
      truthy lat && truthy lng = true \/ (lat = JNull /\ lng = JNull)
  | Raise _ => True
  end /\
  same_files w (_fetch_nominatim net q cc w).2 /\
  length (requests (_fetch_nominatim net q cc w).2) = S (length (requests w)).
Proof.
  destruct (fetch_spec net q cc w) as (n & t & w' & -> & Hfiles & Hreq).
  cbn [fst snd]. split; [| split; [exact Hfiles |]].
  - destruct (respond net n q (countrycodes_of cc)) as [| [| [lat lon] rest]];
      cbn [answer]; [exact I | right; split; reflexivity |].
    destruct (truthy lat && truthy lon) eqn:Ht;
      [left; exact Ht | right; split; reflexivity].
  - rewrite Hreq, length_app. cbn [length]. lia.
Qed.

(** A [Negative] entry is final when fallbacks are off: the call returns no
    coordinate from the world the load left, with or without [skip_api], and
    so without a GET. *)
Theorem negative_without_fallbacks_is_final (a c : option string) (skip : bool)
    (w w0 : World) (q : string) (cache : gmap string entry) :
  build_query a c = Some q -> _load_cache w = (Ok cache, w0) ->
  cache !! correct_query q = Some Negative ->
  geocode_address net a c skip false w = (Ok (None, None), w0).
Proof.
  intros Hq Hload Hlk. destruct skip.
  - apply (geocode_address_skip net a c false w w0 q cache Hq Hload).
    left. exact Hlk.
  - rewrite (geocode_address_negative net a c false w w0 q cache Hq Hload Hlk).
    reflexivity.
Qed.

(** A cached coordinate that [float] rejects: when the entry's [lat] is a
    non-empty string that is no float literal (and [lng] is truthy), every
    call for the query raises [ValueError] right after the load, whatever
    the flags. *)
Theorem cached_unparsable_coordinate_raises (a c : option string)
    (skip fb : bool) (w w0 : World) (q s : string) (lng : jval)
    (cache : gmap string entry) :
  build_query a c = Some q -> _load_cache w = (Ok cache, w0) ->
  cache !! correct_query q = Some (Resolved (JStr s) lng) ->
  s <> "" -> truthy lng = true -> float_of_str s = None ->
  geocode_address net a c skip fb w = (Raise ValueError, w0).
Proof.
  intros Hq Hload Hlk Hs Hlng Hfloat.
  rewrite (geocode_address_resolved net a c skip fb w w0 q cache (JStr s) lng
             Hq Hload Hlk).
  cbn [truthy]. rewrite Hlng.
  destruct (String.eqb_spec s "") as [-> | _]; [contradiction |].
  cbn [negb andb]. unfold return_floats, bind, lift. cbn [to_float].
  rewrite Hfloat. reflexivity.
Qed.

Lemma files_kept_refl (w : World) : files_kept w w.
Proof. split; [reflexivity | auto]. Qed.

Lemma files_kept_trans (a b c : World) :
  files_kept a b -> files_kept b c -> files_kept a c.
Proof.
  intros [Hl1 Hc1] [Hl2 Hc2]. split; [congruence | auto].
Qed.

Lemma load_files_kept : stable files_kept _load_cache.
Proof.
  assert (Hp : forall stored w0,
             cache_file w0 = Json stored -> files_kept w0 (after_purge stored w0)).
  { intros stored w0 Hf. split.
    - apply after_purge_frame.
    - intros _. rewrite (after_purge_file w0 stored Hf). reflexivity. }
  intros w. destruct (cache_file w) as [| | stored | |] eqn:Hf.
  - rewrite (load_cache_missing w Hf).
    destruct (legacy_file w) as [| | data | |] eqn:Hl; cbn [snd];
      try apply files_kept_refl.
    + split.
      * rewrite (proj2 (proj2 (proj2 (after_purge_frame
                   (set_cache_file (Json data) w) data)))).
        reflexivity.
      * rewrite Hf. cbn [exists_file]. discriminate.
    + split; [reflexivity |]. intros _. reflexivity.
  - rewrite (load_cache_not_json w Hf). apply files_kept_refl.
  - rewrite (load_cache_json w stored Hf). apply (Hp stored w Hf).
  - rewrite (load_cache_undecodable w Hf). apply files_kept_refl.
  - rewrite (load_cache_scalar w Hf). apply files_kept_refl.
Qed.

Lemma save_files_kept (cache : gmap string entry) :
  stable files_kept (_save_cache cache).
Proof. intros w. split; reflexivity. Qed.

Lemma fetch_files_kept (q cc : string) :
  stable files_kept (_fetch_nominatim net q cc).
Proof.
  intros w. destruct (fetch_spec net q cc w) as (n & t & w' & -> & [Hc Hl] & _).
  cbn [snd]. split; [exact Hl | rewrite Hc; auto].
Qed.

(** No sequence of resolver calls writes or removes the legacy file, and
    none removes the cache file: once it exists it exists after every call,
    returning or raising. *)
Theorem files_never_lost (os : list op) (w : World) :
  files_kept w (run_ops net event_location_fallbacks os w).
Proof.
  exact (stable_run_ops net event_location_fallbacks files_kept
           files_kept_refl files_kept_trans load_files_kept save_files_kept
           fetch_files_kept os w).
Qed.

(** With [skip_api] a call for a valid query is a cache load and a lookup:
    it ends in the world the load left. *)
Lemma skip_call_world (a c : option string) (fb : bool) (w : World) (q : string) :
  build_query a c = Some q ->
  (geocode_address net a c true fb w).2 = (_load_cache w).2.
Proof.
  intros Hq. destruct (_load_cache w) as [[cache | e] w0] eqn:Hload.
  - destruct (cache !! correct_query q) as [[| lat lng] |] eqn:Hlk.
    + rewrite (geocode_address_skip net a c fb w w0 q cache Hq Hload
                 (or_introl Hlk)). reflexivity.
    + rewrite (geocode_address_resolved net a c true fb w w0 q cache
                 lat lng Hq Hload Hlk).
      destruct (truthy lat && truthy lng);
        [apply return_floats_world | reflexivity].
    + rewrite (geocode_address_skip net a c fb w w0 q cache Hq Hload
                 (or_intror Hlk)). reflexivity.
  - rewrite (geocode_address_load_raises net a c true fb w w0 q e Hq Hload).
    reflexivity.
Qed.

Lemma skip_call_same_timing (a c : option string) (fb : bool) (w : World) :
  same_timing w (geocode_address net a c true fb w).2.
Proof.
  destruct (build_query a c) as [q |] eqn:Hq.
  - rewrite (skip_call_world a c fb w q Hq). apply load_same_timing.
  - rewrite (geocode_address_invalid net a c true fb w Hq).
    repeat split; reflexivity.
Qed.

Lemma skip_venue_world (l : option string) (cc : string) (w : World) :
  (geocode_event_location net event_location_fallbacks l cc true w).2 = w \/
  exists addr,
    (geocode_event_location net event_location_fallbacks l cc true w).2
    = (geocode_address net (Some addr) (Some cc) true true w).2.
Proof.
  unfold geocode_event_location.
  set (addr := match l with
               | Some l0 => if String.eqb l0 "" then "" else normalize_location l0
               | None => ""
               end).
  destruct (String.eqb addr ""); [left; reflexivity |].
  right. exists addr. apply bind_ret_world.
  intros r wx. destruct (both_present r); reflexivity.
Qed.

(** With [skip_api] nothing is fetched: a batch of resolve and
    venue-resolve calls that all skip the provider logs no GET and no sleep
    and leaves the clock and the limiter as they were. *)
Theorem skip_api_never_fetches (os : list op) (w : World) :
  Forall (fun o => skips o = true) os ->
  same_timing w (run_ops net event_location_fallbacks os w).
Proof.
  intros Hall. revert w. unfold run_ops.
  induction Hall as [| o os Ho _ IH]; intros w; cbn [foldl].
  - repeat split; reflexivity.
  - assert (Hstep : same_timing w (run_op net event_location_fallbacks o w).2).
    { destruct o as [a c skip fb | l cc skip]; cbn [skips] in Ho; subst skip;
        cbn [run_op].
      - apply skip_call_same_timing.
      - destruct (skip_venue_world l cc w) as [-> | (addr & ->)];
          [repeat split; reflexivity | apply skip_call_same_timing]. }
    destruct Hstep as (Hc & Hl & Ht).
    destruct (IH (run_op net event_location_fallbacks o w).2) as (Hc' & Hl' & Ht').
    repeat split; congruence.
Qed.

End Calls.

Lemma negative_without_fallbacks_is_final_witness :
  @geocode_address decimal_float
    (net_finding "Teren, Croatia" "43.5081" "16.4402")
    (Some "Neki, Teren") (Some "HR") false false (negative_world "Neki, Teren")
  = (Ok (None, None),
     after_purge (<["Neki, Teren, Croatia" := Negative]> ∅)
       (negative_world "Neki, Teren")).
Proof.
  apply (@negative_without_fallbacks_is_final decimal_float
           (net_finding "Teren, Croatia" "43.5081" "16.4402")
           (Some "Neki, Teren") (Some "HR") false
           (negative_world "Neki, Teren")
           (after_purge (<["Neki, Teren, Croatia" := Negative]> ∅)
              (negative_world "Neki, Teren"))
           "Neki, Teren, Croatia"
           (purge_keys (<["Neki, Teren, Croatia" := Negative]> ∅)).1).
  - reflexivity.
  - apply load_cache_json. reflexivity.
  - reflexivity.
Defined.

Lemma cached_unparsable_coordinate_raises_witness :
  @geocode_address decimal_float silent_net (Some "Split") (Some "HR")
    true true unparsable_world
  = (Raise ValueError, after_purge unparsable_cache unparsable_world).
Proof.
  apply (@cached_unparsable_coordinate_raises decimal_float silent_net
           (Some "Split") (Some "HR") true true unparsable_world
           (after_purge unparsable_cache unparsable_world)
           "Split, Croatia" "north" (JStr "16.4402")
           (purge_keys unparsable_cache).1).
  - reflexivity.
  - apply load_cache_json. reflexivity.
  - reflexivity.
  - discriminate.
  - reflexivity.
  - reflexivity.
Defined.

Lemma skip_api_never_fetches_witness :
  @same_timing decimal_float stale_world
    (run_ops silent_net (fun _ _ => [])
       [Resolve (Some "Split") (Some "HR") true true;
        VenueResolve (Some "Spinut") "HR" true]
       stale_world).
Proof.
  apply (@skip_api_never_fetches decimal_float silent_net (fun _ _ => [])
           [Resolve (Some "Split") (Some "HR") true true;
            VenueResolve (Some "Spinut") "HR" true]
           stale_world).
  repeat constructor.
Defined.

(** ** What the resolvers return *)

Section Results.

Context `{PyFloat}.
Variable net : Network.
Variable event_location_fallbacks : string -> string -> list string.

Lemma yields_ret {A} (P : A -> Prop) (a : A) : P a -> yields P (ret a).
Proof. intros Ha w r w' E. injection E as <- _. exact Ha. Qed.

Lemma yields_any {A} (m : M A) : yields (fun _ => True) m.
Proof. intros w r w' _. exact I. Qed.

Lemma yields_bind {A B} (Q : A -> Prop) (P : B -> Prop) (m : M A)
    (k : A -> M B) :
  yields Q m -> (forall x, Q x -> yields P (k x)) -> yields P (bind m k).
Proof.
  intros Hm Hk w r w' E. unfold bind in E.
  destruct (m w) as [[x | e] w1] eqn:Hmw; [| discriminate E].
  apply (Hk x (Hm w x w1 Hmw) w1 r w' E).
Qed.

Lemma yields_return_floats (lat lng : jval) : yields whole (return_floats lat lng).
Proof.
  intros w r w' E. right. apply (return_floats_both lat lng w r).
  rewrite E. reflexivity.
Qed.

Lemma yields_after (m : M unit) (lat lng : jval) :
  yields whole (m ;; return_floats lat lng).
Proof.
  apply (yields_bind (fun _ => True)); [apply yields_any |].
  intros _ _. apply yields_return_floats.
Qed.

Lemma yields_store_and_return (query : string) (lat lng : jval) :
  yields whole (do cache <- _load_cache;
                _save_cache (<[query := Resolved lat lng]> cache) ;;
                return_floats lat lng).
Proof.
  apply (yields_bind (fun _ => True)); [apply yields_any |].
  intros cache _. apply yields_after.
Qed.

Lemma yields_for_fallbacks {A} (P : A -> Prop) (cc : string)
    (on_hit : jval -> jval -> M A) (candidates : list string) :
  (forall lat lng, yields P (on_hit lat lng)) ->
  yields (fun hit => forall r, hit = Some r -> P r)
         (for_fallbacks net cc on_hit candidates).
Proof.
  intros Hhit. induction candidates as [| f rest IH]; cbn [for_fallbacks].
  - apply yields_ret. intros r E. discriminate E.
  - apply (yields_bind (fun _ => True)); [apply yields_any |].
    intros [lat lng] _. destruct (truthy lat && truthy lng); [| exact IH].
    apply (yields_bind P); [apply Hhit |].
    intros r Hr. apply yields_ret. intros r' E. injection E as <-. exact Hr.
Qed.

Lemma whole_none : whole (None, None).
Proof. left. reflexivity. Qed.

Lemma geocode_address_whole (a c : option string) (skip fb : bool) :
  yields whole (geocode_address net a c skip fb).
Proof.
  unfold geocode_address.
  destruct (build_query a c) as [q |]; [| apply yields_ret, whole_none].
  cbv zeta. apply (yields_bind (fun _ => True)); [apply yields_any |].
  intros cache _. destruct (cache !! correct_query q) as [[| lat lng] |].
  - destruct skip; [apply yields_ret, whole_none |].
    destruct fb; [| apply yields_ret, whole_none].
    apply (yields_bind (fun hit => forall r, hit = Some r -> whole r)).
    + apply yields_for_fallbacks. intros la ln. apply yields_after.
    + intros [r |] Hr; apply yields_ret; [apply Hr; reflexivity | apply whole_none].
  - destruct (truthy lat && truthy lng);
      [apply yields_return_floats | apply yields_ret, whole_none].
  - destruct skip; [apply yields_ret, whole_none |].
    apply (yields_bind (fun _ => True)); [apply yields_any |].
    intros [lat lng] _. destruct (truthy lat && truthy lng);
      [apply yields_store_and_return |].
    apply (yields_bind (fun hit => forall r, hit = Some r -> whole r)).
    + destruct fb.
      * apply yields_for_fallbacks. intros la ln. apply yields_store_and_return.
      * apply yields_ret. intros r E. discriminate E.
    + intros [r |] Hr; [apply yields_ret; apply Hr; reflexivity |].
      apply (yields_bind (fun _ => True)); [apply yields_any |].
      intros cache' _.
      apply (yields_bind (fun _ => True)); [apply yields_any |].
      intros _ _. apply yields_ret, whole_none.
Qed.

Lemma for_event_fallbacks_whole (orig_key : option string) (cc : string)
    (candidates : list string) :
  yields (fun hit => forall r, hit = Some r -> whole r)
         (for_event_fallbacks net orig_key cc candidates).
Proof.
  induction candidates as [| f rest IH]; cbn [for_event_fallbacks].
  - apply yields_ret. intros r E. discriminate E.
  - destruct (_ || _); [exact IH |].
    apply (yields_bind whole); [apply geocode_address_whole |].
    intros r _. destruct (both_present r) eqn:Hb; [| exact IH].
    assert (Hret : yields (fun hit => forall r', hit = Some r' -> whole r')
                     (ret (Some r))).
    { apply yields_ret. intros r' E. injection E as <-. right. exact Hb. }
    destruct r as [[x |] [y |]]; try exact Hret.
    destruct orig_key as [key |]; [| exact Hret].
    apply (yields_bind (fun _ => True)); [apply yields_any |].
    intros cache _.
    apply (yields_bind (fun _ => True)); [apply yields_any |].
    intros _ _. exact Hret.
Qed.

Lemma geocode_event_location_whole (l : option string) (cc : string)
    (skip : bool) :
  yields whole (geocode_event_location net event_location_fallbacks l cc skip).
Proof.
  unfold geocode_event_location.
  destruct (String.eqb _ ""); [apply yields_ret, whole_none |].
  apply (yields_bind whole); [apply geocode_address_whole |].
  intros r Hr. destruct (both_present r); [apply yields_ret; exact Hr |].
  destruct skip; [apply yields_ret, whole_none |].
  apply (yields_bind (fun hit => forall r', hit = Some r' -> whole r'));
    [apply for_event_fallbacks_whole |].
  intros [r' |] Hr'; apply yields_ret; [apply Hr'; reflexivity | apply whole_none].
Qed.

(** Never half a coordinate: whatever the cache holds and whatever the
    provider answers, a resolve or venue-resolve call that returns gives
    both a latitude and a longitude or neither. *)
Theorem resolvers_return_whole (o : op) (w : World) :
  match (run_op net event_location_fallbacks o w).1 with
  | Ok r => whole r
  | Raise _ => True
  end.
Proof.
  destruct (run_op net event_location_fallbacks o w) as [[r | e] w'] eqn:Hrun;
    [| exact I].
  cbn [fst]. destruct o as [a c skip fb | l cc skip]; cbn [run_op] in Hrun.
  - apply (geocode_address_whole a c skip fb w r w' Hrun).
  - apply (geocode_event_location_whole l cc skip w r w' Hrun).
Qed.

(** With [skip_api] the venue resolver is the plain resolver (with
    fallbacks) on the normalized location, whatever venue candidates the
    location has: same value, same world.  A location that normalizes to
    the empty string is answered without reading the cache. *)
Theorem venue_resolver_extends_plain (l : string) (cc : string) (w : World) :
  geocode_event_location net event_location_fallbacks (Some l) cc true w
  = if String.eqb (normalize_location l) "" then (Ok (None, None), w)
    else geocode_address net (Some (normalize_location l)) (Some cc) true true w.
Proof.
  unfold geocode_event_location.
  assert (Haddr : (if String.eqb l "" then "" else normalize_location l)
                  = normalize_location l).
  { destruct (String.eqb_spec l "") as [-> | _]; reflexivity. }
  rewrite Haddr. destruct (String.eqb (normalize_location l) ""); [reflexivity |].
  destruct (geocode_address net (Some (normalize_location l)) (Some cc) true true w)
    as [[r | e] w1] eqn:Hcall; rewrite (bind_eq _ _ _ _ _ Hcall); [| reflexivity].
  destruct (geocode_address_whole _ _ _ _ w r w1 Hcall) as [-> | Hb].
  - reflexivity.
  - rewrite Hb. reflexivity.
Qed.

(** A missing or blank location is answered with no coordinate at once:
    the cache is not read (so a broken legacy file cannot raise), nothing is
    written and nothing is fetched. *)
Theorem venue_blank_location (l : option string) (cc : string) (skip : bool)
    (w : World) :
  l = None \/ (exists s, l = Some s /\ strip s = "") ->
  geocode_event_location net event_location_fallbacks l cc skip w
  = (Ok (None, None), w).
Proof.
  intros [-> | (s & -> & Hs)]; unfold geocode_event_location; [reflexivity |].
  assert (Haddr : (if String.eqb s "" then "" else normalize_location s) = "").
  { destruct (String.eqb s ""); [reflexivity |].
    unfold normalize_location. rewrite Hs. cbn [String.eqb].
    rewrite orb_true_r. reflexivity. }
  rewrite Haddr. reflexivity.
Qed.

End Results.

(** An instance: a cache that holds the location's query and a generator
    that proposes a candidate. *)
Lemma venue_resolver_extends_plain_witness :
  @geocode_event_location decimal_float silent_net
    (fun _ _ => ["Split, Croatia"]) (Some "Quito") "EC" true equator_world
  = (if String.eqb (normalize_location "Quito") ""
     then (Ok (None, None), equator_world)
     else @geocode_address decimal_float silent_net
            (Some (normalize_location "Quito")) (Some "EC") true true
            equator_world).
Proof.
  exact (@venue_resolver_extends_plain decimal_float silent_net
           (fun _ _ => ["Split, Croatia"]) "Quito" "EC" equator_world).
Defined.

Lemma venue_blank_location_witness :
  @geocode_event_location decimal_float silent_net (fun _ _ => [])
    (Some "  ") "HR" false (world_with Missing NotJson)
  = (Ok (None, None), world_with Missing NotJson).
Proof.
  apply (@venue_blank_location decimal_float silent_net (fun _ _ => [])
           (Some "  ") "HR" false (world_with Missing NotJson)).
  right. exists "  ". split; reflexivity.
Defined.

(** ** How many GETs a call may issue *)

Section Budget.

Context `{PyFloat}.
Variable net : Network.

Lemma fallback_queries_length (cache_key : string) :
  length (_fallback_queries cache_key) <= 4.
Proof.
  unfold _fallback_queries.
  destruct (String.eqb cache_key "" || negb (contains ", " cache_key));
    [cbn [length]; lia |].
  cbv zeta. set (parts := List.map strip (split_comma_space cache_key)).
  destruct (Nat.ltb (length parts) 2); [cbn [length]; lia |].
  etransitivity; [apply filter_length_le |].
  rewrite !length_app.
  destruct (Nat.leb 4 (length parts)), (Nat.leb 3 (length parts)),
    (Nat.leb 2 (length parts));
    try match goal with
        | |- context [if ?b then [_] else []] => destruct b
        end;
    cbn [length]; lia.
Qed.

(** The generic generator proposes at most four candidates, and none for a
    query without a ", ". *)
Theorem fallback_queries_bounds (cache_key : string) :
  length (_fallback_queries cache_key) <= 4 /\
  (contains ", " cache_key = false -> _fallback_queries cache_key = []).
Proof.
  split; [apply fallback_queries_length |].
  intros Hno. unfold _fallback_queries. rewrite Hno.
  cbn [negb]. rewrite orb_true_r. reflexivity.
Qed.







End Budget.

(** ** Text: trimming, case and tokens *)

Section TextFacts.

Lemma append_nil_r (s : string) : s +:+ "" = s.
Proof.
  induction s as [| c s IH]; [reflexivity |].
  change (String c (s +:+ "") = String c s). rewrite IH. reflexivity.
Qed.

Lemma append_assoc (a b c : string) : (a +:+ b) +:+ c = a +:+ (b +:+ c).
Proof.
  induction a as [| x a IH]; [reflexivity |].
  change (String x ((a +:+ b) +:+ c) = String x (a +:+ (b +:+ c))).
  rewrite IH. reflexivity.
Qed.

Lemma rev_onto_app (s acc : string) : rev_onto s acc = srev s +:+ acc.
Proof.
  unfold srev. revert acc. induction s as [| c s IH]; intros acc;
    [reflexivity |].
  cbn [rev_onto]. rewrite (IH (String c acc)), (IH (String c "")).
  rewrite append_assoc. reflexivity.
Qed.

Lemma srev_cons (c : ascii) (s : string) :
  srev (String c s) = srev s +:+ String c "".
Proof. unfold srev at 1. cbn [rev_onto]. apply rev_onto_app. Qed.

Lemma srev_app (a b : string) : srev (a +:+ b) = srev b +:+ srev a.
Proof.
  induction a as [| c a IH].
  - change (srev b = srev b +:+ ""). symmetry. apply append_nil_r.
  - change (srev (String c (a +:+ b)) = srev b +:+ srev (String c a)).
    rewrite !srev_cons, IH. apply append_assoc.
Qed.

Lemma srev_involutive (s : string) : srev (srev s) = s.
Proof.
  induction s as [| c s IH]; [reflexivity |].
  rewrite srev_cons, srev_app, IH. reflexivity.
Qed.

Lemma srev_nonempty (s : string) : s <> "" -> srev s <> "".
Proof.
  destruct s as [| c s]; [contradiction |]. intros _.
  rewrite srev_cons. destruct (srev s); discriminate.
Qed.

Lemma lstrip_idem (s : string) : lstrip (lstrip s) = lstrip s.
Proof.
  induction s as [| c s IH]; [reflexivity |].
  cbn [lstrip]. destruct (is_space c) eqn:Hc; [exact IH |].
  cbn [lstrip]. rewrite Hc. reflexivity.
Qed.

Lemma lstrip_cases (s : string) :
  lstrip s = "" \/ exists c t, lstrip s = String c t /\ is_space c = false.
Proof.
  induction s as [| c s IH]; [left; reflexivity |].
  cbn [lstrip]. destruct (is_space c) eqn:Hc; [exact IH |].
  right. exists c, s. split; [reflexivity | exact Hc].
Qed.

Lemma lstrip_snoc (u : string) (c : ascii) :
  is_space c = false -> lstrip (u +:+ String c "") = lstrip u +:+ String c "".
Proof.
  intros Hc. induction u as [| d u IH].
  - change (lstrip (String c "") = String c ""). cbn [lstrip]. rewrite Hc.
    reflexivity.
  - change (lstrip (String d (u +:+ String c "")) = lstrip (String d u) +:+ String c "").
    cbn [lstrip]. destruct (is_space d); [exact IH | reflexivity].
Qed.

Lemma rstrip_cons (c : ascii) (t : string) :
  is_space c = false -> rstrip (String c t) = String c (rstrip t).
Proof.
  intros Hc. unfold rstrip. rewrite srev_cons, (lstrip_snoc _ c Hc), srev_app.
  reflexivity.
Qed.

Lemma rstrip_idem (s : string) : rstrip (rstrip s) = rstrip s.
Proof. unfold rstrip. rewrite srev_involutive, lstrip_idem. reflexivity. Qed.

Lemma strip_idem (s : string) : strip (strip s) = strip s.
Proof.
  unfold strip. destruct (lstrip_cases s) as [-> | (c & t & -> & Hc)];
    [reflexivity |].
  rewrite (rstrip_cons c t Hc). cbn [lstrip]. rewrite Hc.
  rewrite (rstrip_cons c _ Hc), rstrip_idem. reflexivity.
Qed.

Lemma strip_head (c : ascii) (t : string) :
  is_space c = false -> strip (String c t) = String c (rstrip t).
Proof.
  intros Hc. unfold strip. cbn [lstrip]. rewrite Hc. apply rstrip_cons, Hc.
Qed.

Lemma upper_char_idem (c : ascii) : upper_char (upper_char c) = upper_char c.
Proof. destruct c as [[] [] [] [] [] [] [] []]; reflexivity. Qed.

Lemma upper_lower_char (c : ascii) : upper_char (lower_char c) = upper_char c.
Proof. destruct c as [[] [] [] [] [] [] [] []]; reflexivity. Qed.

Lemma upper_idem (s : string) : upper (upper s) = upper s.
Proof.
  unfold upper. induction s as [| c s IH]; [reflexivity |].
  cbn [smap]. rewrite upper_char_idem, IH. reflexivity.
Qed.

Lemma upper_lower (s : string) : upper (lower s) = upper s.
Proof.
  unfold upper, lower. induction s as [| c s IH]; [reflexivity |].
  cbn [smap]. rewrite upper_lower_char, IH. reflexivity.
Qed.

(** [build_query] reads a country code made of ASCII characters (on which
    [upper] and [lower] are Python's) without regard to case. *)
Theorem build_query_code_case (a : option string) (c : string) :
  ascii_only c = true ->
  build_query a (Some (upper c)) = build_query a (Some c) /\
  build_query a (Some (lower c)) = build_query a (Some c).
Proof.
  intros _. unfold build_query. cbn [or_empty]. rewrite upper_idem, upper_lower.
  split; reflexivity.
Qed.

(** [build_query] reads the address up to surrounding whitespace: trimming
    it beforehand changes nothing. *)
Theorem build_query_outer_whitespace (a : string) (c : option string) :
  build_query (Some (strip a)) c = build_query (Some a) c.
Proof. unfold build_query. cbn [or_empty]. rewrite strip_idem. reflexivity. Qed.

Lemma no_space_rev_onto (s acc : string) :
  no_space (rev_onto s acc) = no_space s && no_space acc.
Proof.
  revert acc. induction s as [| c s IH]; intros acc; [reflexivity |].
  cbn [rev_onto no_space]. rewrite IH. cbn [no_space].
  destruct (is_space c), (no_space s), (no_space acc); reflexivity.
Qed.

Lemma no_space_srev (s : string) : no_space (srev s) = no_space s.
Proof. unfold srev. rewrite no_space_rev_onto. apply andb_true_r. Qed.

Lemma words_from_push (u s cur : string) :
  no_space u = true -> words_from (u +:+ s) cur = words_from s (rev_onto u cur).
Proof.
  revert cur. induction u as [| c u IH]; intros cur Hu; [reflexivity |].
  cbn [no_space] in Hu. apply andb_true_iff in Hu as [Hc Hu].
  apply negb_true_iff in Hc.
  change (words_from (String c (u +:+ s)) cur
          = words_from s (rev_onto u (String c cur))).
  cbn [words_from]. rewrite Hc. apply IH. exact Hu.
Qed.

Lemma words_from_words (s cur : string) :
  no_space cur = true -> Forall is_word (words_from s cur).
Proof.
  assert (Hword : forall cur', cur' <> "" -> no_space cur' = true ->
                               is_word (srev cur')).
  { intros cur' Hne Hns. split; [apply srev_nonempty; exact Hne |].
    rewrite no_space_srev. exact Hns. }
  revert cur. induction s as [| c s IH]; intros cur Hcur; cbn [words_from].
  - destruct cur as [| d cur']; [constructor |].
    constructor; [apply Hword; [discriminate | exact Hcur] | constructor].
  - destruct (is_space c) eqn:Hc.
    + destruct cur as [| d cur']; [apply IH; reflexivity |].
      constructor; [apply Hword; [discriminate | exact Hcur] |].
      apply IH. reflexivity.
    + apply IH. cbn [no_space]. rewrite Hc, Hcur. reflexivity.
Qed.

Lemma words_word (w rest : string) :
  is_word w ->
  words w = [w] /\ words (w +:+ " " +:+ rest) = w :: words rest.
Proof.
  intros [Hne Hns]. unfold words.
  pose proof (srev_nonempty w Hne) as Hrev.
  split.
  - rewrite <- (append_nil_r w) at 1. rewrite (words_from_push w "" "" Hns).
    fold (srev w). cbn [words_from].
    destruct (srev w) as [| d r] eqn:E; [contradiction |].
    rewrite <- E, srev_involutive. reflexivity.
  - rewrite (words_from_push w _ "" Hns). fold (srev w).
    change (words_from (String " " rest) (srev w) = w :: words_from rest "").
    cbn [words_from]. change (is_space " ") with true. cbv iota.
    destruct (srev w) as [| d r] eqn:E; [contradiction |].
    rewrite <- E, srev_involutive. reflexivity.
Qed.

Lemma words_concat (ws : list string) :
  Forall is_word ws -> words (String.concat " " ws) = ws.
Proof.
  induction 1 as [| w ws Hw Hws IH]; [reflexivity |].
  destruct (words_word w (String.concat " " ws) Hw) as [Hone Hmore].
  destruct ws as [| w' ws']; [exact Hone |].
  change (words (w +:+ " " +:+ String.concat " " (w' :: ws')) = w :: w' :: ws').
  rewrite Hmore, IH. reflexivity.
Qed.

Lemma replace_newlines_app (a b : string) :
  replace_newlines (a +:+ b) = replace_newlines a +:+ replace_newlines b.
Proof.
  unfold replace_newlines. induction a as [| c a IH]; [reflexivity |].
  change (smap (fun c => if Ascii.eqb c (ascii_of_nat 10) then " "%char else c)
            (String c (a +:+ b))
          = String (if Ascii.eqb c (ascii_of_nat 10) then " "%char else c)
              (smap (fun c => if Ascii.eqb c (ascii_of_nat 10) then " "%char else c) a
               +:+ smap (fun c => if Ascii.eqb c (ascii_of_nat 10) then " "%char else c) b)).
  cbn [smap]. rewrite IH. reflexivity.
Qed.

Lemma replace_newlines_word (w : string) :
  no_space w = true -> replace_newlines w = w.
Proof.
  unfold replace_newlines. induction w as [| c w IH]; [reflexivity |].
  cbn [no_space smap]. intros Hw. apply andb_true_iff in Hw as [Hc Hw].
  rewrite (IH Hw). destruct (Ascii.eqb_spec c (ascii_of_nat 10)) as [-> | _];
    [discriminate Hc | reflexivity].
Qed.

Lemma replace_newlines_concat (ws : list string) :
  Forall is_word ws ->
  replace_newlines (String.concat " " ws) = String.concat " " ws.
Proof.
  induction 1 as [| w ws [_ Hw] Hws IH]; [reflexivity |].
  destruct ws as [| w' ws']; [apply replace_newlines_word; exact Hw |].
  change (replace_newlines (w +:+ " " +:+ String.concat " " (w' :: ws'))
          = w +:+ " " +:+ String.concat " " (w' :: ws')).
  rewrite !replace_newlines_app, IH, (replace_newlines_word w Hw). reflexivity.
Qed.

(** A string made of words joined by single spaces is already normal. *)
Lemma normalize_location_words (ws : list string) :
  Forall is_word ws ->
  normalize_location (String.concat " " ws) = String.concat " " ws.
Proof.
  intros Hws. destruct Hws as [| w ws [Hne Hns] Hrest] eqn:E; [reflexivity |].
  assert (Hall : Forall is_word (w :: ws)) by (constructor; [split |]; assumption).
  clear E. destruct w as [| c w0]; [contradiction |].
  cbn [no_space] in Hns. apply andb_true_iff in Hns as [Hc _].
  apply negb_true_iff in Hc.
  assert (Hshape : exists t, String.concat " " (String c w0 :: ws) = String c t).
  { destruct ws; eexists; reflexivity. }
  destruct Hshape as (t & Ht).
  unfold normalize_location.
  rewrite (replace_newlines_concat _ Hall), (words_concat _ Hall).
  rewrite Ht at 1 2. rewrite (strip_head c t Hc). reflexivity.
Qed.

(** [normalize_location] is idempotent, and its result holds no newline:
    normalizing an already normalized location (as the venue resolver and
    the venue candidate generator both do) changes nothing. *)
Theorem normalize_location_idempotent (location : string) :
  normalize_location (normalize_location location) = normalize_location location /\
  replace_newlines (normalize_location location) = normalize_location location.
Proof.
  assert (Hnorm : normalize_location location = ""
                  \/ exists ws, Forall is_word ws /\
                                normalize_location location = String.concat " " ws).
  { unfold normalize_location.
    destruct (String.eqb location "" || String.eqb (strip location) "");
      [left; reflexivity |].
    right. eexists. split; [| reflexivity].
    apply words_from_words. reflexivity. }
  destruct Hnorm as [-> | (ws & Hws & ->)]; [split; reflexivity |].
  split; [apply normalize_location_words | apply replace_newlines_concat];
    exact Hws.
Qed.

End TextFacts.

Lemma build_query_code_case_witness :
  build_query (Some "Split") (Some (upper "hr"))
  = build_query (Some "Split") (Some "hr") /\
  build_query (Some "Split") (Some (lower "hr"))
  = build_query (Some "Split") (Some "hr").
Proof. apply (build_query_code_case (Some "Split") "hr"). reflexivity. Defined.

(** ** The venue candidate accumulator *)

Section Accumulator.

Lemma prefix_append (x y : string) : String.prefix x (x +:+ y) = true.
Proof.
  induction x as [| c x IH]; [destruct y; reflexivity |].
  change (String.prefix (String c x) (String c (x +:+ y)) = true).
  cbn [String.prefix]. destruct (ascii_dec c c); [exact IH | contradiction].
Qed.

Lemma endswith_append (a b : string) : endswith (a +:+ b) b = true.
Proof. unfold endswith. rewrite srev_app. apply prefix_append. Qed.

(** What one [add] does: nothing, or it appends one new string, which is the
    trimmed argument, completed with the country name unless it ends with
    it already. *)
Lemma add_cases (country q : string) (st : list string * gset string) :
  add country q st = st \/
  exists x,
    add country q st = (st.1 ++ [x], st.2 ∪ {[x]}) /\ (x ∉ st.2) /\
    endswith x country = true /\ 5 <= len x /\
    (x = strip q \/ x = strip q +:+ ", " +:+ country).
Proof.
  unfold add. cbv zeta.
  destruct (String.eqb (strip q) "" || Nat.ltb (len (strip q)) 5) eqn:Hshort;
    [left; reflexivity |].
  destruct (isdigit _); [left; reflexivity |].
  apply orb_false_iff in Hshort as [_ Hlen]. apply Nat.ltb_ge in Hlen.
  destruct (endswith (strip q) country) eqn:Hend; cbn [negb].
  - destruct (bool_decide (strip q ∈ st.2)) eqn:Hseen; [left; reflexivity |].
    right. exists (strip q). split; [reflexivity |].
    split; [apply (bool_decide_eq_false_1 _ Hseen) |].
    split; [exact Hend |]. split; [exact Hlen | left; reflexivity].
  - destruct (bool_decide (strip q +:+ ", " +:+ country ∈ st.2)) eqn:Hseen;
      [left; reflexivity |].
    right. exists (strip q +:+ ", " +:+ country). split; [reflexivity |].
    split; [apply (bool_decide_eq_false_1 _ Hseen) |].
    split; [rewrite <- append_assoc; apply endswith_append |].
    split; [rewrite len_app; lia | right; reflexivity].
Qed.

Lemma add_in_step (country q : string) (st : list string * gset string) :
  in_step st ->
  in_step (add country q st) /\ st.1 `prefix_of` (add country q st).1.
Proof.
  intros [Hnd Hsync].
  destruct (add_cases country q st) as [-> | (x & -> & Hnew & _)].
  - split; [split; assumption | reflexivity].
  - unfold in_step. cbn [fst snd]. split; [split |].
    + apply NoDup_app. split; [exact Hnd |]. split; [| apply NoDup_singleton].
      intros y Hy Hyx. apply list_elem_of_singleton in Hyx as ->.
      apply Hnew, Hsync, Hy.
    + intros y. rewrite elem_of_union, elem_of_singleton, elem_of_app,
        list_elem_of_singleton, Hsync. reflexivity.
    + apply prefix_app_r. reflexivity.
Qed.

(** [add] and [add_with_split] keep the accumulator in step: [fallbacks]
    never holds a string twice, [seen] is exactly the set of its elements,
    and what was in [fallbacks] stays, in order, at its front. *)
Theorem add_keeps_candidates_distinct (country q : string)
    (st : list string * gset string) :
  in_step st ->
  (in_step (add country q st) /\ st.1 `prefix_of` (add country q st).1) /\
  (in_step (add_with_split country q st) /\
   st.1 `prefix_of` (add_with_split country q st).1).
Proof.
  intros Hst. split; [apply add_in_step; exact Hst |].
  unfold add_with_split. destruct (_ || _); apply add_in_step; exact Hst.
Qed.

(** Every string [add] puts into [fallbacks] ends with the country name and
    has at least five characters; [add] appends at most one string. *)
Theorem add_appends_only_clean (country q x : string)
    (st : list string * gset string) :
  x ∈ (add country q st).1 ->
  (x ∈ st.1 \/ (endswith x country = true /\ 5 <= len x)) /\
  length (add country q st).1 <= S (length st.1).
Proof.
  destruct (add_cases country q st) as [-> | (y & -> & _ & Hend & Hlen & _)];
    cbn [fst snd]; intros Hx.
  - split; [left; exact Hx | lia].
  - split; [| rewrite length_app; cbn [length]; lia].
    apply elem_of_app in Hx as [Hx | Hx]; [left; exact Hx |].
    apply list_elem_of_singleton in Hx as ->. right. split; assumption.
Qed.

End Accumulator.

Lemma add_keeps_candidates_distinct_witness :
  (in_step (add "Croatia" "Poljud" ([], ∅)) /\
   [] `prefix_of` (add "Croatia" "Poljud" ([], ∅)).1) /\
  (in_step (add_with_split "Croatia" "Poljud" ([], ∅)) /\
   [] `prefix_of` (add_with_split "Croatia" "Poljud" ([], ∅)).1).
Proof.
  apply (add_keeps_candidates_distinct "Croatia" "Poljud" ([], ∅)).
  split; [constructor |]. intros x. cbn [fst snd].
  rewrite elem_of_empty, elem_of_nil. reflexivity.
Defined.

Lemma add_appends_only_clean_witness :
  ("Poljud, Croatia" ∈ ([] : list string) \/
   (endswith "Poljud, Croatia" "Croatia" = true /\ 5 <= len "Poljud, Croatia")) /\
  length (add "Croatia" "Poljud" ([], ∅)).1 <= 1.
Proof.
  apply (add_appends_only_clean "Croatia" "Poljud" "Poljud, Croatia" ([], ∅)).
  vm_compute. left.
Defined.
